(** * The distributed dual-tree task queue

    A shallow embedding of
    [core/parallel/distributed_dualtree_task_queue.h]
    (class [DistributedDualtreeTaskQueue]) and the properties of its
    operations: [Init], [PushTask], [DequeueTask], [UnlockQuerySubtree],
    [set_split_subtree_flag] and the private [split_subtree_].

    Conventions of the embedding.
    - The class is a template: what its template arguments and its
      collaborators provide (bounds, metrics, tables, the table exchange)
      is gathered in the class [QueueTypes].
    - [int] and [size_t] values are integers of [Z]; the development is
      about runs in which they stay in the range of their C++ types.
    - A [std::vector] or [std::deque] is a list; [operator[]] outside the
      container is undefined behaviour and makes the operation fail.
    - A member function is a computation of the monad [M]: it reads and
      writes the object, may fail (undefined behaviour or a loop that does
      not terminate), and records the [LockCache] calls it makes on the
      table exchange.
    - Priorities are [double] in the source; here they are rationals. *)

From Stdlib Require Import ZArith QArith Lia.
From stdpp Require Import base option list.

Open Scope Z_scope.

(** ** Collaborators *)

(** Modelled from the spec: [core::math::Range] ([core/math/range.h] is not
    part of the sources): an interval [lo, hi] with its midpoint [mid]. *)
Record Range : Type := mkRange { lo : Q; hi : Q }.

Definition mid (r : Range) : Q := ((lo r + hi r) / 2)%Q.

(** Modelled from the spec: [TreeType], a node of a binary space tree with
    [is_leaf], [count], [bound], [left] and [right].  The queue never
    changes a tree, so a pointer to a node is the node.  [left] and [right]
    of a leaf are not defined. *)
Inductive Tree (B : Type) : Type :=
| TreeLeaf (count_ : Z) (bound_ : B)
| TreeNode (count_ : Z) (bound_ : B) (left_ right_ : Tree B).

Arguments TreeLeaf {B} count_ bound_.
Arguments TreeNode {B} count_ bound_ left_ right_.

Definition is_leaf {B} (t : Tree B) : bool :=
  match t with TreeLeaf _ _ => true | TreeNode _ _ _ _ => false end.

Definition count {B} (t : Tree B) : Z :=
  match t with TreeLeaf c _ => c | TreeNode c _ _ _ => c end.

Definition bound {B} (t : Tree B) : B :=
  match t with TreeLeaf _ b => b | TreeNode _ b _ _ => b end.

Definition left {B} (t : Tree B) : option (Tree B) :=
  match t with TreeLeaf _ _ => None | TreeNode _ _ l _ => Some l end.

Definition right {B} (t : Tree B) : option (Tree B) :=
  match t with TreeLeaf _ _ => None | TreeNode _ _ _ r => Some r end.

(** [TaskType]: the value type of the priority queue, built by [PushTask]
    from the query subtree, the reference table, the reference node, the
    cache id and the priority. *)
Record Task (B T : Type) : Type := mkTask {
  query_start_node : Tree B;
  reference_table : T;
  reference_start_node : Tree B;
  cache_id : Z;
  priority : Q
}.

Arguments mkTask {B T} _ _ _ _ _.
Arguments query_start_node {B T} _.
Arguments reference_table {B T} _.
Arguments reference_start_node {B T} _.
Arguments cache_id {B T} _.
Arguments priority {B T} _.

(** The template arguments and the collaborators of the queue. *)
Class QueueTypes : Type := {
  BoundType : Type;
  MetricType : Type;
  TableType : Type;
  TableExchangeType : Type;
  (** [bound().RangeDistanceSq(metric, other_bound)] *)
  RangeDistanceSq : BoundType -> MetricType -> BoundType -> Range;
  (** Modelled from the spec: [TableType::get_frontier_nodes] is not part
      of the sources; it hands over the frontier subtrees of the table at
      the given size cap, which become the content of the output vector. *)
  get_frontier_nodes : TableType -> Z -> list (Tree BoundType);
  (** [TaskType()], the task of a default-constructed [std::pair]. *)
  default_task : Task BoundType TableType
}.

Abbreviation TreeType := (Tree BoundType).
Abbreviation TaskType := (Task BoundType TableType).

(** ** Containers *)

(** [v[i]] read and written; outside the container it is undefined. *)
Definition vec_at {A} (v : list A) (i : Z) : option A :=
  if decide (0 <= i) then v !! Z.to_nat i else None.

Definition vec_set {A} (v : list A) (i : Z) (x : A) : option (list A) :=
  if decide (0 <= i < Z.of_nat (length v))
  then Some (<[Z.to_nat i := x]> v) else None.

(** [v.resize(n)]: cut to [n] elements, or filled up with [d]. *)
Definition vec_resize {A} (n : nat) (d : A) (v : list A) : list A :=
  take n v ++ replicate (n - length v) d.

Section PriorityQueue.
Context {B T : Type}.

(** Modelled from the spec: [TaskPriorityQueueType] is a template
    argument, a max-priority queue of tasks keyed on [priority] in which
    equal priorities leave in insertion order.  It is kept as the list of
    its tasks in insertion order. *)
Definition pq_empty : list (Task B T) := [].

Definition pq_size (pq : list (Task B T)) : Z := Z.of_nat (length pq).

Definition pq_push (t : Task B T) (pq : list (Task B T)) : list (Task B T) :=
  pq ++ [t].

(** The first task of greatest priority. *)
Fixpoint pq_top (pq : list (Task B T)) : option (Task B T) :=
  match pq with
  | [] => None
  | t :: pq' =>
      match pq_top pq' with
      | None => Some t
      | Some u => if Qle_bool (priority u) (priority t) then Some t else Some u
      end
  end.

Fixpoint pq_pop (pq : list (Task B T)) : list (Task B T) :=
  match pq with
  | [] => []
  | t :: pq' =>
      match pq_top pq' with
      | None => []
      | Some u => if Qle_bool (priority u) (priority t) then pq' else t :: pq_pop pq'
      end
  end.

(** The tasks of a queue in the order in which [top]/[pop] hand them out. *)
Fixpoint pq_drain_n (n : nat) (pq : list (Task B T)) : list (Task B T) :=
  match n with
  | O => []
  | S n' =>
      match pq_top pq with
      | None => []
      | Some t => t :: pq_drain_n n' (pq_pop pq)
      end
  end.

Definition pq_drain (pq : list (Task B T)) : list (Task B T) :=
  pq_drain_n (length pq) pq.
End PriorityQueue.

(** ** The queue object *)

(** A call [LockCache(cache_id, n)] on the table exchange. *)
Definition CacheCall : Type := (Z * Z)%type.

Section Queue.
Context `{QT : QueueTypes}.

Record DistributedDualtreeTaskQueue : Type := mkQueue {
  local_query_subtrees_ : list TreeType;
  local_query_subtree_locks_ : list bool;
  tasks_ : list (list TaskType);
  split_subtree_after_unlocking_ : bool;
  table_exchange_ : option TableExchangeType;
  num_remaining_tasks_ : Z
}.

Definition set_local_query_subtrees_ (q : DistributedDualtreeTaskQueue) v :=
  mkQueue v (local_query_subtree_locks_ q) (tasks_ q)
    (split_subtree_after_unlocking_ q) (table_exchange_ q)
    (num_remaining_tasks_ q).

Definition set_local_query_subtree_locks_ (q : DistributedDualtreeTaskQueue) v :=
  mkQueue (local_query_subtrees_ q) v (tasks_ q)
    (split_subtree_after_unlocking_ q) (table_exchange_ q)
    (num_remaining_tasks_ q).

Definition set_tasks_ (q : DistributedDualtreeTaskQueue) v :=
  mkQueue (local_query_subtrees_ q) (local_query_subtree_locks_ q) v
    (split_subtree_after_unlocking_ q) (table_exchange_ q)
    (num_remaining_tasks_ q).

Definition set_split_subtree_after_unlocking_ (q : DistributedDualtreeTaskQueue) v :=
  mkQueue (local_query_subtrees_ q) (local_query_subtree_locks_ q) (tasks_ q)
    v (table_exchange_ q) (num_remaining_tasks_ q).

Definition set_table_exchange_ (q : DistributedDualtreeTaskQueue) v :=
  mkQueue (local_query_subtrees_ q) (local_query_subtree_locks_ q) (tasks_ q)
    (split_subtree_after_unlocking_ q) v (num_remaining_tasks_ q).

Definition set_num_remaining_tasks_ (q : DistributedDualtreeTaskQueue) v :=
  mkQueue (local_query_subtrees_ q) (local_query_subtree_locks_ q) (tasks_ q)
    (split_subtree_after_unlocking_ q) (table_exchange_ q) v.

(** *** The monad of member functions *)

Definition M (A : Type) : Type :=
  DistributedDualtreeTaskQueue ->
  option (A * DistributedDualtreeTaskQueue * list CacheCall).

Definition ret {A} (a : A) : M A := fun q => Some (a, q, []).

Definition bind {A C} (c : M A) (k : A -> M C) : M C :=
  fun q =>
    match c q with
    | None => None
    | Some (a, q1, calls1) =>
        match k a q1 with
        | None => None
        | Some (b, q2, calls2) => Some (b, q2, calls1 ++ calls2)
        end
    end.

Definition fail {A} : M A := fun _ => None.

Definition get : M DistributedDualtreeTaskQueue := fun q => Some (q, q, []).

Definition put (q' : DistributedDualtreeTaskQueue) : M unit :=
  fun _ => Some (tt, q', []).

Definition lift {A} (o : option A) : M A :=
  fun q => match o with Some a => Some (a, q, []) | None => None end.

Definition emit (c : CacheCall) : M unit := fun q => Some (tt, q, [c]).
End Queue.

Arguments DistributedDualtreeTaskQueue {QT}.
Arguments M {QT} A.

Notation "'do' x <- c ; k" := (bind c (fun x => k))
  (at level 10, x name, c at level 100, k at level 200,
   format "'[v' 'do'  x  <-  c ; '/' k ']'").

Ltac unfold_monad :=
  unfold bind, get, put, lift, ret, emit, fail.

Section Operations.
Context `{QT : QueueTypes}.

(** [table_exchange_->LockCache(cache_id, n)]; the pointer is null until
    [Init] sets it. *)
Definition LockCache (cache_id n : Z) : M unit :=
  do q <- get;
  match table_exchange_ q with
  | None => fail
  | Some _ => emit (cache_id, n)
  end.

(** A [for] loop over the elements of a container. *)
Fixpoint for_each {A} (l : list A) (body : A -> M unit) : M unit :=
  match l with
  | [] => ret tt
  | x :: l' => do _ <- body x; for_each l' body
  end.

(** The constructor. *)
Definition new_queue : DistributedDualtreeTaskQueue :=
  mkQueue [] [] [] false None 0.

Definition set_split_subtree_flag : M unit :=
  do q <- get;
  put (set_split_subtree_after_unlocking_ q true).

Definition is_empty (q : DistributedDualtreeTaskQueue) : bool :=
  bool_decide (num_remaining_tasks_ q = 0).

Definition size (q : DistributedDualtreeTaskQueue) : Z :=
  Z.of_nat (length (local_query_subtrees_ q)).

Definition PushTask (metric_in : MetricType) (push_index : Z)
    (reference_table_node_pair : TableType * TreeType * Z) : M unit :=
  do q <- get;
  (* Compute the priority and push in. *)
  do query_subtree <- lift (vec_at (local_query_subtrees_ q) push_index);
  let squared_distance_range :=
    RangeDistanceSq (bound query_subtree) metric_in
      (bound (reference_table_node_pair.1.2)) in
  let new_task :=
    mkTask query_subtree
      (reference_table_node_pair.1.1)
      (reference_table_node_pair.1.2)
      (reference_table_node_pair.2)
      (- mid squared_distance_range)%Q in
  do pq <- lift (vec_at (tasks_ q) push_index);
  do tasks' <- lift (vec_set (tasks_ q) push_index (pq_push new_task pq));
  (* Increment the number of tasks. *)
  put (set_num_remaining_tasks_ (set_tasks_ q tasks')
         (num_remaining_tasks_ q + 1)).

(** [task_out] is the content of the caller's pair before the call, the
    result its content after the call. *)
Definition DequeueTask (probe_index : Z) (task_out : TaskType * Z)
    (lock_query_subtree_in : bool) : M (TaskType * Z) :=
  do q <- get;
  do pq <- lift (vec_at (tasks_ q) probe_index);
  if decide (0 < pq_size pq) then
    do locked <- lift (vec_at (local_query_subtree_locks_ q) probe_index);
    if negb locked then
      (* Copy the task and the query subtree number. *)
      do top <- lift (pq_top pq);
      (* Pop the task after copying and put a lock on the query subtree. *)
      do tasks' <- lift (vec_set (tasks_ q) probe_index (pq_pop pq));
      do locks' <- lift (vec_set (local_query_subtree_locks_ q) probe_index
                           lock_query_subtree_in);
      (* Decrement the number of tasks. *)
      do _ <- put (set_num_remaining_tasks_
                     (set_local_query_subtree_locks_ (set_tasks_ q tasks') locks')
                     (num_remaining_tasks_ q - 1));
      ret (top, probe_index)
    else ret task_out
  else ret task_out.

(** The loop of [split_subtree_] that empties [tasks_[subtree_index]]
    into [prev_tasks].  [fuel] bounds the number of iterations: a loop
    that needs more does not return. *)
Fixpoint split_subtree_drain (fuel : nat) (subtree_index : Z)
    (prev_tasks : list TaskType) : M (list TaskType) :=
  do q <- get;
  do pq <- lift (vec_at (tasks_ q) subtree_index);
  if decide (0 < pq_size pq) then
    match fuel with
    | O => fail
    | S fuel' =>
        do task_pair <- DequeueTask subtree_index (default_task, 0) false;
        split_subtree_drain fuel' subtree_index (prev_tasks ++ [task_pair.1])
    end
  else ret prev_tasks.

(** The body of the second loop of [split_subtree_], for [prev_tasks[i]]. *)
Definition split_subtree_push (metric_in : MetricType) (subtree_index : Z)
    (prev_task : TaskType) : M unit :=
  if is_leaf (reference_start_node prev_task) then
    let reference_table_node_pair :=
      (reference_table prev_task, reference_start_node prev_task,
       cache_id prev_task) in
    do _ <- PushTask metric_in subtree_index reference_table_node_pair;
    do q <- get;
    do _ <- PushTask metric_in (size q - 1) reference_table_node_pair;
    (* Lock only one time since only the query side is split. *)
    LockCache (cache_id prev_task) 1
  else
    do reference_left_child <- lift (left (reference_start_node prev_task));
    do reference_right_child <- lift (right (reference_start_node prev_task));
    let reference_table_left_node_pair :=
      (reference_table prev_task, reference_left_child, cache_id prev_task) in
    let reference_table_right_node_pair :=
      (reference_table prev_task, reference_right_child, cache_id prev_task) in
    do _ <- PushTask metric_in subtree_index reference_table_left_node_pair;
    do _ <- PushTask metric_in subtree_index reference_table_right_node_pair;
    do q <- get;
    do _ <- PushTask metric_in (size q - 1) reference_table_left_node_pair;
    do q <- get;
    do _ <- PushTask metric_in (size q - 1) reference_table_right_node_pair;
    (* Lock three more times since the reference side is also split. *)
    LockCache (cache_id prev_task) 3.

Definition split_subtree_ (metric_in : MetricType) (subtree_index : Z) : M unit :=
  do q <- get;
  (* The current index gets the left child, the right child is appended. *)
  do node <- lift (vec_at (local_query_subtrees_ q) subtree_index);
  do left_ <- lift (left node);
  do right_ <- lift (right node);
  do subtrees' <- lift (vec_set (local_query_subtrees_ q) subtree_index left_);
  (* Grow the list of local query subtrees. *)
  do _ <- put (set_local_query_subtree_locks_
                 (set_local_query_subtrees_ q (subtrees' ++ [right_]))
                 (local_query_subtree_locks_ q ++ [false]));
  (* Adjust the list of tasks.  An iteration of the loop takes one task
     of the slot or, when the slot is locked, none: the loop ends within
     as many iterations as the slot has tasks or it does not end. *)
  do pq <- lift (vec_at (tasks_ q) subtree_index);
  do prev_tasks <- split_subtree_drain (length pq) subtree_index [];
  do q <- get;
  do _ <- put (set_tasks_ q (tasks_ q ++ [pq_empty]));
  for_each prev_tasks (split_subtree_push metric_in subtree_index).

(** One iteration of the search of [UnlockQuerySubtree], on the pair
    [(split_index_query_size, split_index)]. *)
Definition UnlockQuerySubtree_probe (q : DistributedDualtreeTaskQueue)
    (best : Z * Z) (i : nat) : option (Z * Z) :=
  locked ← vec_at (local_query_subtree_locks_ q) (Z.of_nat i);
  if negb locked then
    subtree ← vec_at (local_query_subtrees_ q) (Z.of_nat i);
    if negb (is_leaf subtree) then
      pq ← vec_at (tasks_ q) (Z.of_nat i);
      if decide (0 < pq_size pq) then
        if decide (best.1 < count subtree)
        then Some (count subtree, Z.of_nat i)
        else Some best
      else Some best
    else Some best
  else Some best.

Fixpoint UnlockQuerySubtree_search (q : DistributedDualtreeTaskQueue)
    (best : Z * Z) (indices : list nat) : option (Z * Z) :=
  match indices with
  | [] => Some best
  | i :: indices' =>
      best' ← UnlockQuerySubtree_probe q best i;
      UnlockQuerySubtree_search q best' indices'
  end.

Definition UnlockQuerySubtree (metric_in : MetricType) (subtree_index : Z)
    : M unit :=
  do q <- get;
  (* Unlock the query subtree. *)
  do locks' <- lift (vec_set (local_query_subtree_locks_ q) subtree_index false);
  do _ <- put (set_local_query_subtree_locks_ q locks');
  do q <- get;
  (* If the splitting was requested, *)
  if split_subtree_after_unlocking_ q then
    (* Try to find a subtree to split. *)
    do best <- lift (UnlockQuerySubtree_search q (0, -1)
                       (seq 0 (length (local_query_subtrees_ q))));
    do _ <- (if decide (0 <= best.2)
             then split_subtree_ metric_in (best.2)
             else ret tt);
    do q <- get;
    put (set_split_subtree_after_unlocking_ q false)
  else ret tt.

Definition Init (local_query_table : TableType) (max_query_subtree_size : Z)
    (table_exchange_in : TableExchangeType) : M unit :=
  do q <- get;
  (* Break up the local query tree into a list of subtrees. *)
  do _ <- put (set_local_query_subtrees_ q
                 (get_frontier_nodes local_query_table max_query_subtree_size));
  (* Initialize the other member variables. *)
  do q <- get;
  do _ <- put (set_local_query_subtree_locks_ q
                 (vec_resize (length (local_query_subtrees_ q)) false
                    (local_query_subtree_locks_ q)));
  do q <- get;
  do _ <- put (set_tasks_ q
                 (vec_resize (length (local_query_subtrees_ q)) pq_empty
                    (tasks_ q)));
  do q <- get;
  do _ <- put (set_split_subtree_after_unlocking_ q false);
  do q <- get;
  do _ <- for_each (seq 0 (length (local_query_subtrees_ q)))
            (fun i =>
               do q <- get;
               do locks' <- lift (vec_set (local_query_subtree_locks_ q)
                                    (Z.of_nat i) false);
               put (set_local_query_subtree_locks_ q locks'));
  (* Pointer to the exchange mechanism. *)
  do q <- get;
  put (set_table_exchange_ q (Some table_exchange_in)).
End Operations.

(** ** Sequences of operations *)

Section Runs.
Context `{QT : QueueTypes}.

(** The operations a client performs on an initialised queue. *)
Inductive Operation : Type :=
| OpPush (metric_in : MetricType) (push_index : Z)
    (reference_table_node_pair : TableType * TreeType * Z)
| OpDequeue (probe_index : Z) (task_out : TaskType * Z)
    (lock_query_subtree_in : bool)
| OpUnlock (metric_in : MetricType) (subtree_index : Z)
| OpRequestSplit.

Definition perform (op : Operation) : M unit :=
  match op with
  | OpPush metric_in push_index node_pair =>
      PushTask metric_in push_index node_pair
  | OpDequeue probe_index task_out lock_in =>
      do _ <- DequeueTask probe_index task_out lock_in; ret tt
  | OpUnlock metric_in subtree_index =>
      UnlockQuerySubtree metric_in subtree_index
  | OpRequestSplit => set_split_subtree_flag
  end.

(** The states of a queue that was constructed, initialised, and then
    used through operations that return. *)
Inductive reachable (local_query_table : TableType)
    (max_query_subtree_size : Z) (table_exchange_in : TableExchangeType)
    : DistributedDualtreeTaskQueue -> Prop :=
| reachable_init q calls :
    Init local_query_table max_query_subtree_size table_exchange_in new_queue
      = Some (tt, q, calls) ->
    reachable local_query_table max_query_subtree_size table_exchange_in q
| reachable_step q op q' calls :
    reachable local_query_table max_query_subtree_size table_exchange_in q ->
    perform op q = Some (tt, q', calls) ->
    reachable local_query_table max_query_subtree_size table_exchange_in q'.

(** *** What the properties speak about *)

(** The three registry arrays have one length. *)
Definition aligned (q : DistributedDualtreeTaskQueue) : Prop :=
  length (local_query_subtrees_ q) = length (local_query_subtree_locks_ q)
  /\ length (local_query_subtrees_ q) = length (tasks_ q).

(** The number of tasks in all slots. *)
Definition total_tasks (tasks : list (list TaskType)) : Z :=
  foldr (fun pq n => pq_size pq + n) 0 tasks.

Definition counter_agrees (q : DistributedDualtreeTaskQueue) : Prop :=
  num_remaining_tasks_ q = total_tasks (tasks_ q).

(** An initialised queue in a consistent state. *)
Definition consistent (q : DistributedDualtreeTaskQueue) : Prop :=
  aligned q /\ counter_agrees q /\ is_Some (table_exchange_ q).

(** What a split adds to the cache lock count and to the number of tasks
    for one drained task. *)
Definition split_gain (prev_task : TaskType) : Z :=
  if is_leaf (reference_start_node prev_task) then 1 else 3.

Definition split_lock_call (prev_task : TaskType) : CacheCall :=
  (cache_id prev_task, split_gain prev_task).

Definition split_gain_total (prev_tasks : list TaskType) : Z :=
  foldr (fun prev_task n => split_gain prev_task + n) 0 prev_tasks.

(** The task of a query subtree and a reference node, with the priority
    of that pair. *)
Definition task_for (metric_in : MetricType) (query : TreeType)
    (table : TableType) (node : TreeType) (id : Z) : TaskType :=
  mkTask query table node id
    (- mid (RangeDistanceSq (bound query) metric_in (bound node)))%Q.

(** The tasks that replace a drained task in the slot of [query]. *)
Definition replacements (metric_in : MetricType) (query : TreeType)
    (prev_task : TaskType) : list TaskType :=
  match reference_start_node prev_task with
  | TreeLeaf _ _ =>
      [task_for metric_in query (reference_table prev_task)
         (reference_start_node prev_task) (cache_id prev_task)]
  | TreeNode _ _ l r =>
      [task_for metric_in query (reference_table prev_task) l (cache_id prev_task);
       task_for metric_in query (reference_table prev_task) r (cache_id prev_task)]
  end.

(** The queue after slot [k], whose subtree has the children [L] and [R],
    was split and its tasks [prev_tasks] were redistributed. *)
Definition split_result (metric_in : MetricType) (k : nat)
    (q : DistributedDualtreeTaskQueue) (L R : TreeType)
    (prev_tasks : list TaskType) : DistributedDualtreeTaskQueue :=
  mkQueue
    (<[k := L]> (local_query_subtrees_ q) ++ [R])
    (local_query_subtree_locks_ q ++ [false])
    (<[length (local_query_subtrees_ q) :=
         flat_map (replacements metric_in R) prev_tasks]>
       (<[k := flat_map (replacements metric_in L) prev_tasks]>
          (tasks_ q ++ [[]])))
    (split_subtree_after_unlocking_ q)
    (table_exchange_ q)
    (num_remaining_tasks_ q + split_gain_total prev_tasks).

(** The queue in the second loop of [split_subtree_]: slot [k] holds the
    tasks [a], the last slot [k'] the tasks [b]. *)
Definition split_state (subtrees : list TreeType) (locks : list bool)
    (tasks0 : list (list TaskType)) (flag : bool)
    (exchange : TableExchangeType) (k k' : nat) (a b : list TaskType)
    (n : Z) : DistributedDualtreeTaskQueue :=
  mkQueue subtrees locks (<[k' := b]> (<[k := a]> tasks0)) flag
    (Some exchange) n.

(** A slot that [UnlockQuerySubtree] may split: free, not a leaf, with
    pending tasks. *)
Definition eligible (q : DistributedDualtreeTaskQueue) (k : nat) : bool :=
  match local_query_subtree_locks_ q !! k,
        local_query_subtrees_ q !! k,
        tasks_ q !! k with
  | Some false, Some subtree, Some pq =>
      negb (is_leaf subtree) && bool_decide (0 < pq_size pq)
  | _, _, _ => false
  end.

Definition slot_count (q : DistributedDualtreeTaskQueue) (k : nat) : Z :=
  match local_query_subtrees_ q !! k with
  | Some subtree => count subtree
  | None => 0
  end.

(** [k] is the eligible slot of greatest count, the lowest such index. *)
Definition split_choice (q : DistributedDualtreeTaskQueue) (k : nat) : Prop :=
  eligible q k = true
  /\ (forall j, eligible q j = true -> slot_count q j <= slot_count q k)
  /\ (forall j, eligible q j = true -> (j < k)%nat ->
                slot_count q j < slot_count q k).

(** What the search of [UnlockQuerySubtree] knows in [best] once it has
    looked at the slots below [j]. *)
Definition search_state (q : DistributedDualtreeTaskQueue) (j : nat)
    (best : Z * Z) : Prop :=
  (best = (0, -1)
   /\ forall j', (j' < j)%nat -> eligible q j' = true -> slot_count q j' <= 0)
  \/ (exists k,
        best = (slot_count q k, Z.of_nat k)
        /\ (k < j)%nat /\ eligible q k = true /\ 0 < slot_count q k
        /\ (forall j', (j' < j)%nat -> eligible q j' = true ->
                       slot_count q j' <= slot_count q k)
        /\ (forall j', (j' < k)%nat -> eligible q j' = true ->
                       slot_count q j' < slot_count q k)).

End Runs.

(** ** A concrete instance: intervals of the line

    Bounds are closed intervals with integer ends, a table is its tree, and
    the frontier at a size cap is the set of topmost nodes that are leaves
    or hold at most that many points. *)

Module Line.
Definition distance_sq (a : Z * Z) (_ : unit) (b : Z * Z) : Range :=
  let gap := Z.max 0 (Z.max (b.1 - a.2) (a.1 - b.2)) in
  let far := Z.max (b.2 - a.1) (a.2 - b.1) in
  mkRange (inject_Z (gap * gap)) (inject_Z (far * far)).

Fixpoint frontier (cap : Z) (t : Tree (Z * Z)) : list (Tree (Z * Z)) :=
  match t with
  | TreeLeaf _ _ => [t]
  | TreeNode c _ l r =>
      if decide (c <= cap) then [t] else frontier cap l ++ frontier cap r
  end.

Definition nowhere : Tree (Z * Z) := TreeLeaf 0 (0, 0).

Definition types : QueueTypes := {|
  BoundType := Z * Z;
  MetricType := unit;
  TableType := Tree (Z * Z);
  TableExchangeType := unit;
  RangeDistanceSq := distance_sq;
  get_frontier_nodes := fun t cap => frontier cap t;
  default_task := mkTask nowhere nowhere nowhere 0 0
|}.

(** The query tree over 8 points of the line. *)
Definition Q_LL : Tree (Z * Z) := TreeLeaf 2 (0, 1).
Definition Q_LR : Tree (Z * Z) := TreeLeaf 2 (2, 3).
Definition Q_RL : Tree (Z * Z) := TreeLeaf 2 (4, 5).
Definition Q_RR : Tree (Z * Z) := TreeLeaf 2 (6, 7).
Definition Q_L : Tree (Z * Z) := TreeNode 4 (0, 3) Q_LL Q_LR.
Definition Q_R : Tree (Z * Z) := TreeNode 4 (4, 7) Q_RL Q_RR.
Definition Q_root : Tree (Z * Z) := TreeNode 8 (0, 7) Q_L Q_R.

(** The reference tree: two leaves [R3], [R1] and an internal node [N]. *)
Definition R1 : Tree (Z * Z) := TreeLeaf 1 (6, 6).
Definition R3 : Tree (Z * Z) := TreeLeaf 1 (4, 4).
Definition N_L : Tree (Z * Z) := TreeLeaf 1 (9, 9).
Definition N_R : Tree (Z * Z) := TreeLeaf 1 (10, 10).
Definition N : Tree (Z * Z) := TreeNode 2 (9, 10) N_L N_R.
Definition R_root : Tree (Z * Z) :=
  TreeNode 4 (4, 10) (TreeNode 2 (4, 6) R3 R1) N.

Definition queue : Type := @DistributedDualtreeTaskQueue types.

(** The state and the calls of a computation that returns. *)
Definition after (c : @M types unit) (q : queue) : queue :=
  match c q with Some (_, q', _) => q' | None => q end.

Definition calls_of (c : @M types unit) (q : queue) : list CacheCall :=
  match c q with Some (_, _, calls) => calls | None => [] end.

(** [Init] with cap 4: slots [Q_L] and [Q_R]. *)
Definition q_init : queue :=
  after (Init (QT := types) Q_root 4 tt) new_queue.

(** Three tasks pushed to slot 0, one after the other: the leaf
    references [R1] and [R3], then the internal reference [N]. *)
Definition q_one : queue :=
  after (PushTask (QT := types) tt 0 (R_root, R1, 1)) q_init.

Definition q_two : queue :=
  after (PushTask (QT := types) tt 0 (R_root, R3, 3)) q_one.

Definition q_pushed : queue :=
  after (PushTask (QT := types) tt 0 (R_root, N, 7)) q_two.

(** The best task of slot 0 taken with the lock. *)
Definition q_held : queue :=
  after (perform (QT := types) (OpDequeue 0 (default_task, 0) true)) q_pushed.

(** A split is asked for while slot 0 is held. *)
Definition q_asked : queue :=
  after (set_split_subtree_flag (QT := types)) q_held.

(** All three tasks pending with slot 0 free, and a split asked for. *)
Definition q_ready : queue :=
  after (set_split_subtree_flag (QT := types)) q_pushed.

(** Slot 0 of [q_ready] split. *)
Definition q_split : queue :=
  after (split_subtree_ (QT := types) tt 0) q_ready.

Definition split_calls : list CacheCall :=
  calls_of (split_subtree_ (QT := types) tt 0) q_ready.

(** The tasks of slot 0. *)
Definition pending (q : queue) : list (Task (Z * Z) (Tree (Z * Z))) :=
  default [] (tasks_ q !! 0%nat).
End Line.

(** ** Accounting of cache locks *)

Section Accounting.
Context `{QT : QueueTypes}.

(** The tasks of a slot, and of all slots, that refer to cache id [c]. *)
Definition cache_count (c : Z) (pq : list TaskType) : Z :=
  foldr (fun t n => (if decide (cache_id t = c) then 1 else 0) + n) 0 pq.

Definition tasks_with_cache (c : Z) (tasks : list (list TaskType)) : Z :=
  foldr (fun pq n => cache_count c pq + n) 0 tasks.

(** What a list of [LockCache] calls adds to the lock count of cache id
    [c]. *)
Definition locked_for (c : Z) (calls : list CacheCall) : Z :=
  foldr (fun call n => (if decide (call.1 = c) then call.2 else 0) + n) 0 calls.
End Accounting.

(** ** Tasks and the slots that hold them *)

Section Fitting.
Context `{QT : QueueTypes}.



End Fitting.

(** ** The slot that a requested split takes *)

Section SplitTarget.
Context `{QT : QueueTypes}.

(** A slot that the search of [UnlockQuerySubtree] can choose: free, not a
    leaf, with pending tasks, and of a count above the 0 from which
    [split_index_query_size] starts. *)
Definition splittable (q : DistributedDualtreeTaskQueue) (k : nat) : bool :=
  eligible q k && bool_decide (0 < slot_count q k).

(** [k] is the slot of greatest count among these, the lowest such index. *)
Definition split_target (q : DistributedDualtreeTaskQueue) (k : nat) : Prop :=
  splittable q k = true
  /\ (forall j, splittable q j = true -> slot_count q j <= slot_count q k)
  /\ (forall j, splittable q j = true -> (j < k)%nat ->
                slot_count q j < slot_count q k).
End SplitTarget.

(** A queue of the line whose only query subtree is internal and has the
    count 0; one task is pending, the slot is free and a split is asked
    for. *)
Module Hollow.
Definition Q_hollow : Tree (Z * Z) := TreeNode 0 (0, 3) Line.Q_LL Line.Q_LR.

Definition q_ready : Line.queue :=
  Line.after (set_split_subtree_flag (QT := Line.types))
    (Line.after (PushTask (QT := Line.types) tt 0 (Line.R_root, Line.R1, 1))
       (Line.after (Init (QT := Line.types) Q_hollow 4 tt) new_queue)).
End Hollow.

(** More states of the queue of the line: a worker holds slot 0 and has
    asked for a split while a task is pending in slot 1. *)
Module Workers.
Definition q_busy : Line.queue :=
  Line.after (PushTask (QT := Line.types) tt 1 (Line.R_root, Line.N, 7))
    Line.q_asked.

(** The second worker frees slot 1, which splits it. *)
Definition q_freed : Line.queue :=
  Line.after (UnlockQuerySubtree (QT := Line.types) tt 1) q_busy.

Definition freed_calls : list CacheCall :=
  Line.calls_of (UnlockQuerySubtree (QT := Line.types) tt 1) q_busy.
End Workers.

(** * Properties *)

(** ** Containers and the priority queue *)

Section ContainerFacts.
Context {A : Type}.
Implicit Types (v : list A) (i : Z) (k : nat).

Lemma vec_at_nat v k : vec_at v (Z.of_nat k) = v !! k.
Proof.
  unfold vec_at. case_decide; [|lia]. by rewrite Nat2Z.id.
Qed.

Lemma vec_at_Some v i x :
  vec_at v i = Some x -> 0 <= i /\ v !! Z.to_nat i = Some x.
Proof. unfold vec_at. case_decide; [done|discriminate]. Qed.

Lemma vec_at_nat_of v i x :
  vec_at v i = Some x -> i = Z.of_nat (Z.to_nat i) /\ v !! Z.to_nat i = Some x.
Proof. intros [? ?]%vec_at_Some. split; [lia|done]. Qed.

Lemma vec_set_nat v k x :
  (k < length v)%nat -> vec_set v (Z.of_nat k) x = Some (<[k := x]> v).
Proof.
  intros. unfold vec_set. case_decide; [|lia]. by rewrite Nat2Z.id.
Qed.

Lemma vec_set_Some v i x v' :
  vec_set v i x = Some v' ->
  0 <= i /\ (Z.to_nat i < length v)%nat /\ v' = <[Z.to_nat i := x]> v.
Proof.
  unfold vec_set. case_decide; [|discriminate].
  intros [= <-]. repeat split; lia.
Qed.

Lemma vec_resize_length n d v : length (vec_resize n d v) = n.
Proof.
  unfold vec_resize.
  rewrite length_app, length_take, length_replicate. lia.
Qed.

Lemma vec_resize_nil n (d : A) : vec_resize n d [] = replicate n d.
Proof. unfold vec_resize. rewrite take_nil. simpl. by rewrite Nat.sub_0_r. Qed.
End ContainerFacts.

Section PriorityQueueFacts.
Context {B T : Type}.
Implicit Types (pq : list (Task B T)) (t u : Task B T).

Lemma pq_top_None pq : pq_top pq = None <-> pq = [].
Proof.
  split; [|by intros ->].
  destruct pq as [|t pq]; [done|]. simpl.
  destruct (pq_top pq); [|done]. by destruct (Qle_bool _ _).
Qed.

Lemma pq_top_is_Some pq : pq <> [] -> exists t, pq_top pq = Some t.
Proof.
  intros Hne. destruct (pq_top pq) as [t|] eqn:Ht; [by exists t|].
  by apply pq_top_None in Ht.
Qed.

Lemma pq_top_elem_of pq t : pq_top pq = Some t -> t ∈ pq.
Proof.
  revert t. induction pq as [|a pq IH]; intros t; simpl; [done|].
  destruct (pq_top pq) as [u|].
  - destruct (Qle_bool _ _); intros [= <-].
    + apply list_elem_of_here.
    + apply list_elem_of_further. by apply IH.
  - intros [= <-]. apply list_elem_of_here.
Qed.

(** [top] has the greatest priority of the queue. *)
Lemma pq_top_greatest pq t :
  pq_top pq = Some t -> forall u, u ∈ pq -> (priority u <= priority t)%Q.
Proof.
  revert t. induction pq as [|a pq IH]; intros t; simpl; [done|].
  destruct (pq_top pq) as [w|] eqn:Hw.
  - destruct (Qle_bool (priority w) (priority a)) eqn:Hle.
    + intros [= <-] u [->|Hu]%elem_of_cons; [apply Qle_refl|].
      apply Qle_bool_iff in Hle.
      eapply Qle_trans; [by apply (IH w)|done].
    + intros [= <-] u [->|Hu]%elem_of_cons; [|by apply IH].
      destruct (Qlt_le_dec (priority w) (priority a)) as [Hlt|Hge]; [|done].
      apply Qlt_le_weak in Hlt. apply Qle_bool_iff in Hlt. congruence.
  - apply pq_top_None in Hw as ->.
    intros [= <-] u [->|Hu]%elem_of_cons; [apply Qle_refl|].
    by apply elem_of_nil in Hu.
Qed.

(** [pop] takes [top] out of the queue and nothing else. *)
Lemma pq_pop_top pq t : pq_top pq = Some t -> pq ≡ₚ t :: pq_pop pq.
Proof.
  revert t. induction pq as [|a pq IH]; intros t; simpl; [done|].
  destruct (pq_top pq) as [w|] eqn:Hw.
  - destruct (Qle_bool _ _); intros [= <-]; [done|].
    rewrite (IH w) at 1 by done. apply Permutation_swap.
  - apply pq_top_None in Hw as ->. by intros [= <-].
Qed.

Lemma pq_pop_length pq t :
  pq_top pq = Some t -> length pq = S (length (pq_pop pq)).
Proof. intros Ht. by rewrite (pq_pop_top _ _ Ht) at 1. Qed.

Lemma pq_drain_n_spec n pq :
  length pq = n -> pq_drain_n n pq ≡ₚ pq.
Proof.
  revert pq. induction n as [|n IH]; intros pq Hn; simpl.
  - by destruct pq.
  - destruct (pq_top pq) as [t|] eqn:Ht.
    + rewrite (pq_pop_top _ _ Ht) at 2. constructor.
      apply IH. apply pq_pop_length in Ht. lia.
    + apply pq_top_None in Ht as ->. done.
Qed.

(** Draining a queue hands out each of its tasks once. *)
Lemma pq_drain_perm pq : pq_drain pq ≡ₚ pq.
Proof. by apply pq_drain_n_spec. Qed.

Lemma pq_drain_length pq : length (pq_drain pq) = length pq.
Proof. by rewrite pq_drain_perm. Qed.

Lemma pq_drain_nil : pq_drain (@nil (Task B T)) = [].
Proof. done. Qed.

Lemma pq_drain_step pq t :
  pq_top pq = Some t -> pq_drain pq = t :: pq_drain (pq_pop pq).
Proof.
  intros Ht. unfold pq_drain.
  rewrite (pq_pop_length _ _ Ht). simpl. by rewrite Ht.
Qed.
End PriorityQueueFacts.

(** ** The operations, one by one *)

Section OperationFacts.
Context `{QT : QueueTypes}.
Implicit Types (q : DistributedDualtreeTaskQueue) (i : Z) (k : nat).
Implicit Types (pq : list TaskType) (t : TaskType).

Lemma vec_set_at {A} (v : list A) i x y :
  vec_at v i = Some y -> vec_set v i x = Some (<[Z.to_nat i := x]> v).
Proof.
  intros [? Hl]%vec_at_Some. apply lookup_lt_Some in Hl.
  unfold vec_set. case_decide; [done|lia].
Qed.

Lemma PushTask_eq metric_in i node_pair q query pq :
  vec_at (local_query_subtrees_ q) i = Some query ->
  vec_at (tasks_ q) i = Some pq ->
  PushTask metric_in i node_pair q =
    Some (tt,
          set_num_remaining_tasks_
            (set_tasks_ q
               (<[Z.to_nat i :=
                    pq ++ [task_for metric_in query (node_pair.1.1)
                             (node_pair.1.2) (node_pair.2)]]> (tasks_ q)))
            (num_remaining_tasks_ q + 1),
          []).
Proof.
  intros Hq Hpq. unfold PushTask. unfold_monad.
  rewrite Hq, Hpq, (vec_set_at _ _ _ _ Hpq). reflexivity.
Qed.

(** [PushTask] returns exactly where both of its reads are defined. *)
Lemma PushTask_Some metric_in i node_pair q r :
  PushTask metric_in i node_pair q = Some r ->
  exists query pq,
    vec_at (local_query_subtrees_ q) i = Some query
    /\ vec_at (tasks_ q) i = Some pq.
Proof.
  unfold PushTask. unfold_monad.
  destruct (vec_at (local_query_subtrees_ q) i) as [query|]; [|done].
  destruct (vec_at (tasks_ q) i) as [pq|]; [|done]. eauto.
Qed.

Lemma DequeueTask_empty i task_out lock_in q :
  vec_at (tasks_ q) i = Some [] ->
  DequeueTask i task_out lock_in q = Some (task_out, q, []).
Proof.
  intros Hpq. unfold DequeueTask. unfold_monad. rewrite Hpq.
  case_decide as Hs; [|done]. unfold pq_size in Hs. simpl in Hs. lia.
Qed.

Lemma DequeueTask_held i task_out lock_in q pq :
  vec_at (tasks_ q) i = Some pq ->
  vec_at (local_query_subtree_locks_ q) i = Some true ->
  DequeueTask i task_out lock_in q = Some (task_out, q, []).
Proof.
  intros Hpq Hl. unfold DequeueTask. unfold_monad. rewrite Hpq.
  case_decide; [|done]. by rewrite Hl.
Qed.

Lemma DequeueTask_take i task_out lock_in q pq t :
  vec_at (tasks_ q) i = Some pq ->
  pq_top pq = Some t ->
  vec_at (local_query_subtree_locks_ q) i = Some false ->
  DequeueTask i task_out lock_in q =
    Some ((t, i),
          set_num_remaining_tasks_
            (set_local_query_subtree_locks_
               (set_tasks_ q (<[Z.to_nat i := pq_pop pq]> (tasks_ q)))
               (<[Z.to_nat i := lock_in]> (local_query_subtree_locks_ q)))
            (num_remaining_tasks_ q - 1),
          []).
Proof.
  intros Hpq Ht Hl. unfold DequeueTask. unfold_monad. rewrite Hpq.
  case_decide as Hs.
  - rewrite Hl. simpl. rewrite Ht.
    rewrite (vec_set_at _ _ _ _ Hpq), (vec_set_at _ _ _ _ Hl). reflexivity.
  - apply pq_pop_length in Ht. unfold pq_size in Hs. lia.
Qed.

(** While the slot is held and not empty, the first loop of
    [split_subtree_] makes no progress, whatever the bound. *)
Lemma split_subtree_drain_held fuel i prev_tasks q pq :
  vec_at (tasks_ q) i = Some pq -> pq <> [] ->
  vec_at (local_query_subtree_locks_ q) i = Some true ->
  split_subtree_drain fuel i prev_tasks q = None.
Proof.
  intros Hpq Hne Hl. revert prev_tasks.
  induction fuel as [|fuel IH]; intros prev_tasks; simpl; unfold bind at 1;
    unfold get at 1; unfold bind at 1; unfold lift at 1; rewrite Hpq;
    (case_decide as Hs;
     [|destruct pq; [done|unfold pq_size in Hs; simpl in Hs; lia]]).
  - done.
  - unfold bind at 1. rewrite (DequeueTask_held _ _ _ _ _ Hpq Hl). by rewrite IH.
Qed.

(** On a free slot the loop takes every task, in the order of the
    priority queue. *)
Lemma split_subtree_drain_free fuel i prev_tasks q pq :
  vec_at (tasks_ q) i = Some pq ->
  (pq = [] \/ vec_at (local_query_subtree_locks_ q) i = Some false) ->
  (length pq <= fuel)%nat ->
  split_subtree_drain fuel i prev_tasks q =
    Some (prev_tasks ++ pq_drain pq,
          set_num_remaining_tasks_
            (set_tasks_ q (<[Z.to_nat i := []]> (tasks_ q)))
            (num_remaining_tasks_ q - pq_size pq),
          []).
Proof.
  revert prev_tasks q pq.
  induction fuel as [|fuel IH]; intros prev_tasks q pq Hpq Hl Hfuel.
  - destruct pq; [|simpl in Hfuel; lia].
    simpl. unfold_monad. rewrite Hpq. simpl.
    rewrite app_nil_r. destruct q. unfold set_num_remaining_tasks_, set_tasks_.
    simpl in *. apply vec_at_Some in Hpq as [_ Hpq].
    rewrite (list_insert_id _ _ _ Hpq). unfold pq_size. simpl. by rewrite Z.sub_0_r.
  - simpl. unfold bind at 1. unfold get at 1. unfold bind at 1.
    unfold lift at 1. rewrite Hpq.
    destruct (pq_top pq) as [t|] eqn:Ht.
    + destruct Hl as [->|Hl]; [done|].
      pose proof (pq_pop_length _ _ Ht) as Hlen.
      case_decide as Hs; [|unfold pq_size in Hs; lia].
      unfold bind at 1. rewrite (DequeueTask_take _ _ _ _ _ _ Hpq Ht Hl).
      pose proof (vec_at_Some _ _ _ Hpq) as [Hi Hpq'].
      pose proof (vec_at_Some _ _ _ Hl) as [_ Hl'].
      rewrite (list_insert_id _ _ _ Hl').
      erewrite (IH _ _ (pq_pop pq)).
      * simpl. rewrite list_insert_insert_eq, (pq_drain_step _ _ Ht).
        rewrite <- app_assoc. simpl.
        unfold set_num_remaining_tasks_, set_tasks_, set_local_query_subtree_locks_.
        simpl. do 3 f_equal. f_equal. unfold pq_size. lia.
      * simpl. unfold vec_at. case_decide; [|lia].
        apply list_lookup_insert_eq. by eapply lookup_lt_Some.
      * right. done.
      * lia.
    + apply pq_top_None in Ht as ->.
      case_decide as Hs; [unfold pq_size in Hs; simpl in Hs; lia|].
      rewrite app_nil_r. destruct q. unfold set_num_remaining_tasks_, set_tasks_.
      simpl in *. apply vec_at_Some in Hpq as [_ Hpq].
      rewrite (list_insert_id _ _ _ Hpq). unfold pq_size. simpl. by rewrite Z.sub_0_r.
Qed.

(** *** The second loop of [split_subtree_]

    The loop runs on a registry in which slot [k] holds the left child
    and the last slot [k'] the right child; [a] and [b] are the tasks of
    the two slots. *)
Section PushLoop.
Variables (metric_in : MetricType) (k k' : nat).
Variables (subtrees : list TreeType) (locks : list bool).
Variables (tasks0 : list (list TaskType)) (flag : bool).
Variables (exchange : TableExchangeType) (L R : TreeType).
Hypothesis Hk : subtrees !! k = Some L.
Hypothesis Hk' : subtrees !! k' = Some R.
Hypothesis Hlast : length subtrees = S k'.
Hypothesis Hne : k <> k'.
Hypothesis Hlen : length tasks0 = S k'.

Local Abbreviation state :=
  (split_state subtrees locks tasks0 flag exchange k k').

Lemma PushTask_left a b n node_pair :
  PushTask metric_in (Z.of_nat k) node_pair (state a b n) =
    Some (tt,
          state (a ++ [task_for metric_in L (node_pair.1.1) (node_pair.1.2)
                         (node_pair.2)]) b (n + 1),
          []).
Proof.
  assert (k < length tasks0)%nat.
  { apply lookup_lt_Some in Hk. lia. }
  rewrite (PushTask_eq metric_in _ node_pair _ L a).
  - unfold split_state, set_num_remaining_tasks_, set_tasks_. simpl.
    rewrite Nat2Z.id. do 3 f_equal.
    rewrite list_insert_insert_ne by done.
    rewrite list_insert_insert_eq. by rewrite list_insert_insert_ne by done.
  - simpl. by rewrite vec_at_nat.
  - simpl. rewrite vec_at_nat.
    rewrite list_lookup_insert_ne by done.
    by apply list_lookup_insert_eq.
Qed.

Lemma PushTask_right a b n node_pair :
  PushTask metric_in (size (state a b n) - 1) node_pair (state a b n) =
    Some (tt,
          state a (b ++ [task_for metric_in R (node_pair.1.1) (node_pair.1.2)
                           (node_pair.2)]) (n + 1),
          []).
Proof.
  assert (size (state a b n) - 1 = Z.of_nat k') as ->.
  { unfold size, split_state. simpl. lia. }
  rewrite (PushTask_eq metric_in _ node_pair _ R b).
  - unfold split_state, set_num_remaining_tasks_, set_tasks_. simpl.
    rewrite Nat2Z.id. do 3 f_equal.
    by rewrite list_insert_insert_eq.
  - simpl. by rewrite vec_at_nat.
  - simpl. rewrite vec_at_nat.
    apply list_lookup_insert_eq. rewrite length_insert. lia.
Qed.

Lemma split_subtree_push_eq a b n prev_task :
  split_subtree_push metric_in (Z.of_nat k) prev_task (state a b n) =
    Some (tt,
          state (a ++ replacements metric_in L prev_task)
            (b ++ replacements metric_in R prev_task)
            (n + (split_gain prev_task + 1)),
          [split_lock_call prev_task]).
Proof.
  unfold split_subtree_push, replacements, split_lock_call, split_gain.
  destruct (reference_start_node prev_task) as [c bd|c bd l r] eqn:Hnode;
    simpl.
  - unfold bind at 1. rewrite PushTask_left.
    unfold bind at 1. unfold get at 1.
    unfold bind at 1. rewrite PushTask_right.
    unfold LockCache. unfold_monad. simpl.
    do 3 f_equal. unfold split_state. f_equal. lia.
  - unfold bind at 1. unfold lift at 1.
    unfold bind at 1. unfold lift at 1.
    unfold bind at 1. rewrite PushTask_left.
    unfold bind at 1. rewrite PushTask_left.
    unfold bind at 1. unfold get at 1.
    unfold bind at 1. rewrite PushTask_right.
    unfold bind at 1. unfold get at 1.
    unfold bind at 1. rewrite PushTask_right.
    unfold LockCache. unfold_monad. simpl.
    rewrite <- !app_assoc. simpl.
    do 3 f_equal. unfold split_state. f_equal. lia.
Qed.

Lemma split_subtree_push_loop prev_tasks a b n :
  for_each prev_tasks (split_subtree_push metric_in (Z.of_nat k))
    (state a b n) =
    Some (tt,
          state (a ++ flat_map (replacements metric_in L) prev_tasks)
            (b ++ flat_map (replacements metric_in R) prev_tasks)
            (n + (split_gain_total prev_tasks
                  + Z.of_nat (length prev_tasks))),
          map split_lock_call prev_tasks).
Proof.
  revert a b n. induction prev_tasks as [|t ts IH]; intros a b n; simpl.
  - unfold ret. rewrite !app_nil_r. do 3 f_equal. unfold split_state. f_equal. lia.
  - unfold bind. rewrite split_subtree_push_eq, IH. simpl.
    rewrite <- !app_assoc. do 3 f_equal. unfold split_state. f_equal. lia.
Qed.
End PushLoop.

(** *** [split_subtree_] on a free internal slot of an aligned registry *)

Lemma split_subtree_eq metric_in k q c bd L R pq exchange :
  aligned q ->
  local_query_subtrees_ q !! k = Some (TreeNode c bd L R) ->
  tasks_ q !! k = Some pq ->
  local_query_subtree_locks_ q !! k = Some false ->
  table_exchange_ q = Some exchange ->
  split_subtree_ metric_in (Z.of_nat k) q =
    Some (tt, split_result metric_in k q L R (pq_drain pq),
          map split_lock_call (pq_drain pq)).
Proof.
  intros [Hal1 Hal2] Hnode Hpq Hlock Hex.
  unfold split_result.
  destruct q as [S Lk T f e n]; simpl in *. subst e.
  pose proof (lookup_lt_Some _ _ _ Hnode) as HkS.
  unfold split_subtree_.
  unfold bind at 1. unfold get at 1.
  unfold bind at 1. unfold lift at 1. simpl. rewrite vec_at_nat, Hnode.
  unfold bind at 1. unfold lift at 1. simpl.
  unfold bind at 1. unfold lift at 1. simpl.
  unfold bind at 1. unfold lift at 1. rewrite vec_set_nat by done.
  unfold bind at 1. unfold put at 1.
  unfold bind at 1. unfold lift at 1. rewrite vec_at_nat, Hpq.
  unfold bind at 1.
  rewrite (split_subtree_drain_free _ _ _ _ pq); simpl.
  2:{ by rewrite vec_at_nat. }
  2:{ right. rewrite vec_at_nat. by apply lookup_app_l_Some. }
  2:{ done. }
  unfold bind at 1. unfold get at 1.
  unfold bind at 1. unfold put at 1.
  unfold set_tasks_, set_num_remaining_tasks_. simpl.
  rewrite Nat2Z.id.
  assert (<[k := []]> T ++ [pq_empty]
          = <[length S := []]> (<[k := []]> (T ++ [[]]))) as ->.
  { rewrite insert_app_l by lia.
    symmetry. apply list_insert_id.
    rewrite lookup_app_r; rewrite length_insert; [|lia].
    by replace (length S - length T)%nat with 0%nat by lia. }
  pose proof (split_subtree_push_loop metric_in k (length S)
                (<[k := L]> S ++ [R]) (Lk ++ [false]) (T ++ [[]]) f
                exchange L R) as Hloop.
  unfold split_state in Hloop. rewrite Hloop.
  - simpl. rewrite pq_drain_length.
    replace (n - pq_size pq
             + (split_gain_total (pq_drain pq) + Z.of_nat (length pq)))
      with (n + split_gain_total (pq_drain pq)) by (unfold pq_size; lia).
    reflexivity.
  - apply lookup_app_l_Some. apply list_lookup_insert_eq. done.
  - rewrite lookup_app_r; rewrite length_insert; [|lia].
    by rewrite Nat.sub_diag.
  - rewrite length_app, length_insert. simpl. lia.
  - lia.
  - rewrite length_app. simpl. lia.
Qed.

(** *** The search of [UnlockQuerySubtree] *)

Lemma UnlockQuerySubtree_probe_eq q best k :
  aligned q -> (k < length (local_query_subtrees_ q))%nat ->
  UnlockQuerySubtree_probe q best k =
    Some (if eligible q k && bool_decide (best.1 < slot_count q k)
          then (slot_count q k, Z.of_nat k) else best).
Proof.
  intros [Hal1 Hal2] Hk.
  destruct (lookup_lt_is_Some_2 (local_query_subtrees_ q) k Hk) as [st Hst].
  destruct (lookup_lt_is_Some_2 (local_query_subtree_locks_ q) k) as [l Hl];
    [lia|].
  destruct (lookup_lt_is_Some_2 (tasks_ q) k) as [pq Hpq]; [lia|].
  unfold UnlockQuerySubtree_probe, eligible, slot_count.
  rewrite !vec_at_nat, Hl, Hst, Hpq. simpl.
  destruct l; simpl; [done|].
  destruct (is_leaf st); simpl; [done|].
  case_decide; case_decide;
    rewrite ?bool_decide_eq_true_2, ?bool_decide_eq_false_2 by done; done.
Qed.

Lemma UnlockQuerySubtree_search_seq q :
  aligned q ->
  forall len a best,
    (a + len <= length (local_query_subtrees_ q))%nat ->
    search_state q a best ->
    exists best',
      UnlockQuerySubtree_search q best (seq a len) = Some best'
      /\ search_state q (a + len) best'.
Proof.
  intros Hal. induction len as [|len IH]; intros a best Hlen Hinv; simpl.
  - exists best. by rewrite Nat.add_0_r.
  - rewrite UnlockQuerySubtree_probe_eq by (done || lia). simpl.
    replace (a + S len)%nat with (S a + len)%nat by lia.
    apply IH; [lia|].
    destruct (eligible q a) eqn:Hel; simpl.
    + case_bool_decide as Hlt.
      * right. exists a. split; [done|].
        destruct Hinv as [[-> Hlow]|(k & -> & Hk & Hek & Hpos & Hmax & Hfirst)];
          simpl in Hlt.
        -- repeat split; [lia|done|lia| |].
           ++ intros j' Hj' Hej.
              destruct (decide (j' = a)) as [->|]; [lia|].
              specialize (Hlow j' ltac:(lia) Hej). lia.
           ++ intros j' Hj' Hej. specialize (Hlow j' ltac:(lia) Hej). lia.
        -- repeat split; [lia|done|lia| |].
           ++ intros j' Hj' Hej.
              destruct (decide (j' = a)) as [->|]; [lia|].
              specialize (Hmax j' ltac:(lia) Hej). lia.
           ++ intros j' Hj' Hej. specialize (Hmax j' ltac:(lia) Hej). lia.
      * destruct Hinv as [[-> Hlow]|(k & -> & Hk & Hek & Hpos & Hmax & Hfirst)];
          simpl in Hlt.
        -- left. split; [done|]. intros j' Hj' Hej.
           destruct (decide (j' = a)) as [->|]; [lia|].
           specialize (Hlow j' ltac:(lia) Hej). lia.
        -- right. exists k. repeat split; [lia|done|lia| |done].
           intros j' Hj' Hej.
           destruct (decide (j' = a)) as [->|]; [lia|].
           specialize (Hmax j' ltac:(lia) Hej). lia.
    + destruct Hinv as [[-> Hlow]|(k & -> & Hk & Hek & Hpos & Hmax & Hfirst)].
      * left. split; [done|]. intros j' Hj' Hej.
        destruct (decide (j' = a)) as [->|]; [congruence|].
        specialize (Hlow j' ltac:(lia) Hej). lia.
      * right. exists k. repeat split; [lia|done|lia| |done].
        intros j' Hj' Hej.
        destruct (decide (j' = a)) as [->|]; [congruence|].
        specialize (Hmax j' ltac:(lia) Hej). lia.
Qed.

Lemma eligible_lt q k :
  eligible q k = true -> (k < length (local_query_subtrees_ q))%nat.
Proof.
  unfold eligible.
  destruct (local_query_subtree_locks_ q !! k) as [[]|]; try done.
  destruct (local_query_subtrees_ q !! k) eqn:Hst; [|done].
  intros _. by eapply lookup_lt_Some.
Qed.

(** The search over all slots ends in a state that has seen them all. *)
Lemma UnlockQuerySubtree_search_all q :
  aligned q ->
  exists best,
    UnlockQuerySubtree_search q (0, -1)
      (seq 0 (length (local_query_subtrees_ q))) = Some best
    /\ search_state q (length (local_query_subtrees_ q)) best.
Proof.
  intros Hal.
  apply (UnlockQuerySubtree_search_seq q Hal _ 0%nat); [lia|].
  left. split; [done|]. intros; lia.
Qed.

(** A search state that has seen every slot names the slot to split. *)
Lemma search_state_choice q k :
  search_state q (length (local_query_subtrees_ q))
    (slot_count q k, Z.of_nat k) ->
  split_choice q k.
Proof.
  intros [[[=] _]|(k' & [= Hc Hk] & Hlt & Hel & Hpos & Hmax & Hfirst)];
    [lia|].
  apply Nat2Z.inj in Hk as <-.
  unfold split_choice. split; [done|]. split.
  - intros j Hj. apply Hmax; [by apply eligible_lt|done].
  - intros j Hj Hjk. by apply Hfirst.
Qed.

Lemma split_choice_unique q k1 k2 :
  split_choice q k1 -> split_choice q k2 -> k1 = k2.
Proof.
  intros (He1 & Hmax1 & Hfirst1) (He2 & Hmax2 & Hfirst2).
  destruct (Nat.lt_trichotomy k1 k2) as [Hlt|[->|Hlt]]; [|done|].
  - specialize (Hfirst2 _ He1 Hlt). specialize (Hmax1 _ He2). lia.
  - specialize (Hfirst1 _ He2 Hlt). specialize (Hmax2 _ He1). lia.
Qed.


Lemma eligible_inv q k :
  eligible q k = true ->
  exists c bd L R pq,
    local_query_subtree_locks_ q !! k = Some false
    /\ local_query_subtrees_ q !! k = Some (TreeNode c bd L R)
    /\ tasks_ q !! k = Some pq /\ pq <> [].
Proof.
  unfold eligible.
  destruct (local_query_subtree_locks_ q !! k) as [[]|]; try done.
  destruct (local_query_subtrees_ q !! k) as [[c bd|c bd L R]|]; try done.
  - by destruct (tasks_ q !! k).
  - destruct (tasks_ q !! k) as [pq|]; [|done]. simpl.
    intros Hs%bool_decide_eq_true. exists c, bd, L, R, pq.
    repeat split. intros ->. unfold pq_size in Hs. simpl in Hs. lia.
Qed.


(** *** [UnlockQuerySubtree] *)

Lemma UnlockQuerySubtree_eq metric_in i q locks' :
  vec_set (local_query_subtree_locks_ q) i false = Some locks' ->
  UnlockQuerySubtree metric_in i q =
    if split_subtree_after_unlocking_ q then
      match
        UnlockQuerySubtree_search (set_local_query_subtree_locks_ q locks')
          (0, -1) (seq 0 (length (local_query_subtrees_ q)))
      with
      | None => None
      | Some best =>
          match
            (if decide (0 <= best.2)
             then split_subtree_ metric_in (best.2)
                    (set_local_query_subtree_locks_ q locks')
             else Some (tt, set_local_query_subtree_locks_ q locks', []))
          with
          | None => None
          | Some (_, q2, calls) =>
              Some (tt, set_split_subtree_after_unlocking_ q2 false, calls)
          end
      end
    else Some (tt, set_local_query_subtree_locks_ q locks', []).
Proof.
  intros Hset. unfold UnlockQuerySubtree. unfold_monad. rewrite Hset. simpl.
  destruct (split_subtree_after_unlocking_ q); [|done].
  destruct (UnlockQuerySubtree_search _ _ _) as [best|]; [|done]. simpl.
  case_decide.
  - destruct (split_subtree_ _ _ _) as [[[[] q2] calls]|]; [|done].
    simpl. by rewrite app_nil_r.
  - done.
Qed.

Lemma UnlockQuerySubtree_Some metric_in i q r :
  UnlockQuerySubtree metric_in i q = Some r ->
  vec_set (local_query_subtree_locks_ q) i false
    = Some (<[Z.to_nat i := false]> (local_query_subtree_locks_ q)).
Proof.
  unfold UnlockQuerySubtree. unfold_monad.
  destruct (vec_set _ _ _) as [locks'|] eqn:Hset; [|done].
  intros _. by apply vec_set_Some in Hset as (_ & _ & ->).
Qed.

Lemma aligned_unlock q k :
  aligned q ->
  aligned (set_local_query_subtree_locks_ q
             (<[k := false]> (local_query_subtree_locks_ q))).
Proof. intros [? ?]. split; simpl; [by rewrite length_insert|done]. Qed.

(** With the flag set, [UnlockQuerySubtree] either finds no slot and
    drops the request, or splits the slot of its choice. *)
Lemma UnlockQuerySubtree_flagged metric_in i q b :
  aligned q ->
  vec_at (local_query_subtree_locks_ q) i = Some b ->
  split_subtree_after_unlocking_ q = true ->
  let q1 := set_local_query_subtree_locks_ q
              (<[Z.to_nat i := false]> (local_query_subtree_locks_ q)) in
  (search_state q1 (length (local_query_subtrees_ q)) (0, -1)
   /\ UnlockQuerySubtree metric_in i q =
        Some (tt, set_split_subtree_after_unlocking_ q1 false, []))
  \/ (exists k,
        split_choice q1 k /\ 0 < slot_count q1 k
        /\ UnlockQuerySubtree metric_in i q =
             match split_subtree_ metric_in (Z.of_nat k) q1 with
             | Some (_, q2, calls) =>
                 Some (tt, set_split_subtree_after_unlocking_ q2 false, calls)
             | None => None
             end).
Proof.
  intros Hal Hb Hflag q1.
  rewrite (UnlockQuerySubtree_eq _ _ _ _ (vec_set_at _ _ false _ Hb)), Hflag.
  fold q1.
  destruct (UnlockQuerySubtree_search_all q1 (aligned_unlock q _ Hal))
    as (best & Hsearch & Hbest).
  change (local_query_subtrees_ q1) with (local_query_subtrees_ q) in *.
  rewrite Hsearch.
  pose proof Hbest as [[-> _]|(k & -> & _ & _ & Hpos & _)]; simpl.
  - left. by split.
  - right. exists k. split; [by apply search_state_choice|]. split; [done|].
    case_decide; [|lia]. by destruct (split_subtree_ _ _ _) as [[[[] ?] ?]|].
Qed.

(** *** Counting tasks *)

Lemma total_tasks_app (a b : list (list TaskType)) :
  total_tasks (a ++ b) = total_tasks a + total_tasks b.
Proof. induction a as [|pq a IH]; simpl; [done|]. rewrite IH. lia. Qed.

Lemma total_tasks_insert (tasks : list (list TaskType)) k old new :
  tasks !! k = Some old ->
  total_tasks (<[k := new]> tasks) = total_tasks tasks - pq_size old + pq_size new.
Proof.
  revert k. induction tasks as [|pq tasks IH]; intros [|k] Hk; simpl in *;
    try done.
  - injection Hk as ->. lia.
  - rewrite (IH _ Hk). lia.
Qed.

Lemma total_tasks_replicate n :
  total_tasks (replicate n (@pq_empty BoundType TableType)) = 0.
Proof. induction n as [|n IH]; simpl; [done|]. rewrite IH. done. Qed.

Lemma replacements_length metric_in query prev_tasks :
  2 * Z.of_nat (length (flat_map (replacements metric_in query) prev_tasks))
  = split_gain_total prev_tasks + Z.of_nat (length prev_tasks).
Proof.
  induction prev_tasks as [|t ts IH]; simpl; [done|].
  rewrite length_app. unfold replacements at 1, split_gain at 1.
  destruct (reference_start_node t); simpl; lia.
Qed.

Lemma split_result_consistent metric_in k q c bd L R pq :
  consistent q ->
  local_query_subtrees_ q !! k = Some (TreeNode c bd L R) ->
  tasks_ q !! k = Some pq ->
  consistent (split_result metric_in k q L R (pq_drain pq)).
Proof.
  intros ([Hal1 Hal2] & Hcount & Hex) Hnode Hpq.
  pose proof (lookup_lt_Some _ _ _ Hnode) as Hk.
  split; [|split]; [split| |done]; simpl.
  - rewrite !length_app, length_insert. simpl. lia.
  - rewrite length_app, !length_insert, length_app. simpl. lia.
  - unfold counter_agrees in *. simpl. rewrite Hcount.
    erewrite total_tasks_insert; cycle 1.
    { rewrite list_lookup_insert_ne by lia.
      rewrite lookup_app_r by lia. by rewrite Hal2, Nat.sub_diag. }
    erewrite total_tasks_insert; cycle 1.
    { by apply lookup_app_l_Some. }
    rewrite total_tasks_app. simpl.
    pose proof (replacements_length metric_in L (pq_drain pq)).
    pose proof (replacements_length metric_in R (pq_drain pq)).
    rewrite pq_drain_length in *. unfold pq_size. lia.
Qed.

(** *** [Init] *)

Lemma Init_unlock_loop len :
  forall a rest q,
    local_query_subtree_locks_ q = replicate a false ++ rest ->
    length rest = len ->
    for_each (seq a len)
      (fun k =>
         do q <- get;
         do locks' <- lift (vec_set (local_query_subtree_locks_ q)
                              (Z.of_nat k) false);
         put (set_local_query_subtree_locks_ q locks')) q
    = Some (tt, set_local_query_subtree_locks_ q (replicate (a + len) false), []).
Proof.
  induction len as [|len IH]; intros a rest q Hlocks Hrest; simpl.
  - destruct rest; [|done]. rewrite app_nil_r in Hlocks.
    rewrite Nat.add_0_r, <- Hlocks. by destruct q.
  - destruct rest as [|x rest]; [done|]. injection Hrest as Hrest.
    unfold bind at 1. unfold bind at 1. unfold get at 1.
    unfold bind at 1. unfold lift at 1.
    rewrite vec_set_nat; cycle 1.
    { rewrite Hlocks, length_app, length_replicate. simpl. lia. }
    unfold put at 1.
    rewrite (IH (S a) rest); [|simpl|done].
    + replace (a + S len)%nat with (S a + len)%nat by lia. reflexivity.
    + rewrite Hlocks.
      replace a with (length (replicate a false) + 0)%nat at 1
        by (rewrite length_replicate; lia).
      rewrite insert_app_r. simpl.
      by rewrite (cons_middle false), app_assoc, <- replicate_S_end.
Qed.

Lemma Init_eq local_query_table max_query_subtree_size table_exchange_in q :
  Init local_query_table max_query_subtree_size table_exchange_in q =
    let frontier := get_frontier_nodes local_query_table max_query_subtree_size in
    Some (tt,
          mkQueue frontier
            (replicate (length frontier) false)
            (vec_resize (length frontier) pq_empty (tasks_ q))
            false
            (Some table_exchange_in)
            (num_remaining_tasks_ q),
          []).
Proof.
  unfold Init.
  do 4 (unfold bind at 1; unfold get at 1; unfold bind at 1; unfold put at 1).
  unfold bind at 1; unfold get at 1. unfold bind at 1.
  erewrite (Init_unlock_loop _ 0%nat); [|simpl; reflexivity|].
  - reflexivity.
  - simpl. apply vec_resize_length.
Qed.

(** *** What an operation that returns has done *)

Lemma PushTask_effect metric_in i node_pair q u q' calls :
  PushTask metric_in i node_pair q = Some (u, q', calls) ->
  calls = []
  /\ num_remaining_tasks_ q' = num_remaining_tasks_ q + 1
  /\ table_exchange_ q' = table_exchange_ q.
Proof.
  intros Hpush.
  destruct (PushTask_Some _ _ _ _ _ Hpush) as (query & pq & Hq & Hpq).
  rewrite (PushTask_eq _ _ _ _ _ _ Hq Hpq) in Hpush.
  by injection Hpush as <- <- <-.
Qed.

Lemma LockCache_effect id n q u q' calls :
  LockCache id n q = Some (u, q', calls) -> calls = [(id, n)] /\ q' = q.
Proof.
  unfold LockCache. unfold_monad.
  destruct (table_exchange_ q); [|done]. simpl. by intros [= <- <-].
Qed.

Lemma split_subtree_push_effect metric_in i prev_task q u q' calls :
  split_subtree_push metric_in i prev_task q = Some (u, q', calls) ->
  calls = [split_lock_call prev_task]
  /\ num_remaining_tasks_ q' = num_remaining_tasks_ q + (split_gain prev_task + 1).
Proof.
  unfold split_subtree_push, split_lock_call, split_gain.
  destruct (is_leaf (reference_start_node prev_task)).
  - unfold bind at 1.
    destruct (PushTask _ _ _ q) as [[[[] q1] c1]|] eqn:H1; [|done].
    apply PushTask_effect in H1 as (-> & Hn1 & _).
    unfold bind at 1. unfold get at 1. unfold bind at 1.
    destruct (PushTask _ _ _ q1) as [[[[] q2] c2]|] eqn:H2; [|done].
    apply PushTask_effect in H2 as (-> & Hn2 & _).
    destruct (LockCache _ _ q2) as [[[[] q3] c3]|] eqn:H3; [|done].
    apply LockCache_effect in H3 as (-> & ->).
    simpl. intros [= <- <- <-]. split; [done|lia].
  - unfold bind at 1. unfold lift at 1.
    destruct (left _) as [l|]; [|done].
    unfold bind at 1. unfold lift at 1.
    destruct (right _) as [r|]; [|done].
    unfold bind at 1.
    destruct (PushTask _ _ _ q) as [[[[] q1] c1]|] eqn:H1; [|done].
    apply PushTask_effect in H1 as (-> & Hn1 & _).
    unfold bind at 1.
    destruct (PushTask _ _ _ q1) as [[[[] q2] c2]|] eqn:H2; [|done].
    apply PushTask_effect in H2 as (-> & Hn2 & _).
    unfold bind at 1. unfold get at 1. unfold bind at 1.
    destruct (PushTask _ _ _ q2) as [[[[] q3] c3]|] eqn:H3; [|done].
    apply PushTask_effect in H3 as (-> & Hn3 & _).
    unfold bind at 1. unfold get at 1. unfold bind at 1.
    destruct (PushTask _ _ _ q3) as [[[[] q4] c4]|] eqn:H4; [|done].
    apply PushTask_effect in H4 as (-> & Hn4 & _).
    destruct (LockCache _ _ q4) as [[[[] q5] c5]|] eqn:H5; [|done].
    apply LockCache_effect in H5 as (-> & ->).
    simpl. intros [= <- <- <-]. split; [done|lia].
Qed.

Lemma split_subtree_push_loop_effect metric_in i prev_tasks :
  forall q u q' calls,
    for_each prev_tasks (split_subtree_push metric_in i) q
      = Some (u, q', calls) ->
    calls = map split_lock_call prev_tasks
    /\ num_remaining_tasks_ q' =
         num_remaining_tasks_ q
         + (split_gain_total prev_tasks + Z.of_nat (length prev_tasks)).
Proof.
  induction prev_tasks as [|t ts IH]; intros q u q' calls; simpl.
  - unfold ret. intros [= <- <- <-]. split; [done|lia].
  - unfold bind.
    destruct (split_subtree_push _ _ _ q) as [[[[] q1] c1]|] eqn:H1; [|done].
    apply split_subtree_push_effect in H1 as (-> & Hn1).
    destruct (for_each _ _ q1) as [[[[] q2] c2]|] eqn:H2; [|done].
    apply IH in H2 as (-> & Hn2).
    intros [= <- <- <-]. split; [done|lia].
Qed.

Lemma split_subtree_drain_effect i q pq r :
  vec_at (tasks_ q) i = Some pq ->
  split_subtree_drain (length pq) i [] q = Some r ->
  r = (pq_drain pq,
       set_num_remaining_tasks_
         (set_tasks_ q (<[Z.to_nat i := []]> (tasks_ q)))
         (num_remaining_tasks_ q - pq_size pq),
       []).
Proof.
  intros Hpq Hr.
  assert (pq = [] \/ vec_at (local_query_subtree_locks_ q) i = Some false)
    as Hfree.
  { destruct pq as [|t pq]; [by left|right].
    destruct (vec_at (local_query_subtree_locks_ q) i) as [[]|] eqn:Hl.
    - by rewrite (split_subtree_drain_held _ _ _ _ _ Hpq) in Hr.
    - done.
    - simpl in Hr. revert Hr. unfold bind at 1. unfold get at 1.
      unfold bind at 1. unfold lift at 1. rewrite Hpq.
      case_decide; [|done]. unfold bind at 1. unfold DequeueTask.
      unfold_monad. rewrite Hpq. case_decide; [|done]. by rewrite Hl. }
  rewrite (split_subtree_drain_free _ _ _ _ _ Hpq Hfree) in Hr by done.
  by injection Hr as <-.
Qed.

(** Whenever [split_subtree_] returns, it has locked the cache once for
    each task of the slot, and the counter has grown by their gains. *)
Lemma split_subtree_effect metric_in i q u q' calls :
  split_subtree_ metric_in i q = Some (u, q', calls) ->
  exists pq,
    vec_at (tasks_ q) i = Some pq
    /\ calls = map split_lock_call (pq_drain pq)
    /\ num_remaining_tasks_ q' =
         num_remaining_tasks_ q + split_gain_total (pq_drain pq).
Proof.
  unfold split_subtree_.
  unfold bind at 1. unfold get at 1.
  unfold bind at 1. unfold lift at 1.
  destruct (vec_at (local_query_subtrees_ q) i) as [node|]; [|done].
  unfold bind at 1. unfold lift at 1. destruct (left node) as [l|]; [|done].
  unfold bind at 1. unfold lift at 1. destruct (right node) as [r|]; [|done].
  unfold bind at 1. unfold lift at 1.
  destruct (vec_set _ _ _) as [subtrees'|]; [|done].
  unfold bind at 1. unfold put at 1.
  unfold bind at 1. unfold lift at 1.
  destruct (vec_at (tasks_ q) i) as [pq|] eqn:Hpq; [|done].
  unfold bind at 1.
  destruct (split_subtree_drain _ _ _ _) as [res|] eqn:Hdrain; [|done].
  apply (split_subtree_drain_effect _ _ pq) in Hdrain as ->; [|done].
  unfold bind at 1. unfold get at 1. unfold bind at 1. unfold put at 1.
  destruct (for_each _ _ _) as [[[[] q2] c2]|] eqn:Hloop; [|done].
  apply split_subtree_push_loop_effect in Hloop as (-> & Hn).
  simpl in Hn. rewrite pq_drain_length in Hn.
  intros [= <- <- <-]. exists pq. split; [done|]. split; [done|].
  unfold pq_size in Hn. lia.
Qed.

Lemma DequeueTask_cases i task_out lock_in q r q' calls :
  DequeueTask i task_out lock_in q = Some (r, q', calls) ->
  (r = task_out /\ q' = q /\ calls = [])
  \/ (exists pq t,
        vec_at (tasks_ q) i = Some pq /\ pq_top pq = Some t
        /\ vec_at (local_query_subtree_locks_ q) i = Some false
        /\ r = (t, i) /\ calls = []
        /\ q' = set_num_remaining_tasks_
                  (set_local_query_subtree_locks_
                     (set_tasks_ q (<[Z.to_nat i := pq_pop pq]> (tasks_ q)))
                     (<[Z.to_nat i := lock_in]> (local_query_subtree_locks_ q)))
                  (num_remaining_tasks_ q - 1)).
Proof.
  destruct (vec_at (tasks_ q) i) as [pq|] eqn:Hpq; cycle 1.
  { unfold DequeueTask. unfold_monad. by rewrite Hpq. }
  destruct (pq_top pq) as [t|] eqn:Ht; cycle 1.
  { apply pq_top_None in Ht as ->.
    rewrite (DequeueTask_empty _ _ _ _ Hpq). intros [= <- <- <-]. by left. }
  destruct (vec_at (local_query_subtree_locks_ q) i) as [[]|] eqn:Hl.
  - rewrite (DequeueTask_held _ _ _ _ _ Hpq Hl). intros [= <- <- <-]. by left.
  - rewrite (DequeueTask_take _ _ _ _ _ _ Hpq Ht Hl). intros [= <- <- <-].
    right. by exists pq, t.
  - unfold DequeueTask. unfold_monad. rewrite Hpq.
    case_decide; [by rewrite Hl|].
    apply pq_pop_length in Ht. unfold pq_size in *. lia.
Qed.

(** *** Consistency is kept *)

Lemma consistent_Init local_query_table max_query_subtree_size
    table_exchange_in q calls :
  Init local_query_table max_query_subtree_size table_exchange_in new_queue
    = Some (tt, q, calls) ->
  consistent q.
Proof.
  rewrite Init_eq. simpl. intros [= <- <-].
  split; [split|split]; simpl.
  - by rewrite length_replicate.
  - by rewrite vec_resize_length.
  - unfold counter_agrees. simpl.
    by rewrite vec_resize_nil, total_tasks_replicate.
  - done.
Qed.

Lemma consistent_PushTask metric_in i node_pair q q' calls :
  consistent q ->
  PushTask metric_in i node_pair q = Some (tt, q', calls) ->
  consistent q' /\ size q' = size q.
Proof.
  intros ([Hal1 Hal2] & Hcount & Hex) Hpush.
  destruct (PushTask_Some _ _ _ _ _ Hpush) as (query & pq & Hq & Hpq).
  rewrite (PushTask_eq _ _ _ _ _ _ Hq Hpq) in Hpush.
  injection Hpush as <- <-.
  split; [|done]. split; [split|split]; simpl; try done.
  - by rewrite length_insert.
  - unfold counter_agrees in *. simpl.
    apply vec_at_Some in Hpq as [_ Hpq].
    rewrite (total_tasks_insert _ _ _ _ Hpq), Hcount.
    unfold pq_size. rewrite length_app. simpl. lia.
Qed.

Lemma consistent_DequeueTask i task_out lock_in q r q' calls :
  consistent q ->
  DequeueTask i task_out lock_in q = Some (r, q', calls) ->
  consistent q' /\ size q' = size q.
Proof.
  intros Hq [(_ & -> & _)|(pq & t & Hpq & Ht & Hl & _ & _ & ->)]%DequeueTask_cases;
    [done|].
  destruct Hq as ([Hal1 Hal2] & Hcount & Hex).
  split; [|done]. split; [split|split]; simpl; try done.
  - by rewrite length_insert.
  - by rewrite length_insert.
  - unfold counter_agrees in *. simpl.
    apply vec_at_Some in Hpq as [_ Hpq].
    rewrite (total_tasks_insert _ _ _ _ Hpq), Hcount.
    apply pq_pop_length in Ht. unfold pq_size. lia.
Qed.

Lemma consistent_unlock q k :
  consistent q ->
  consistent (set_local_query_subtree_locks_ q
                (<[k := false]> (local_query_subtree_locks_ q))).
Proof.
  intros (Hal & Hcount & Hex). split; [by apply aligned_unlock|done].
Qed.

(** On a consistent queue [UnlockQuerySubtree] of a slot returns. *)
Lemma consistent_UnlockQuerySubtree metric_in i q b :
  consistent q ->
  vec_at (local_query_subtree_locks_ q) i = Some b ->
  exists q' calls,
    UnlockQuerySubtree metric_in i q = Some (tt, q', calls)
    /\ consistent q'
    /\ (size q' = size q \/ size q' = size q + 1)
    /\ local_query_subtree_locks_ q' !! Z.to_nat i = Some false
    /\ split_subtree_after_unlocking_ q' = false.
Proof.
  intros Hq Hb.
  pose proof (consistent_unlock q (Z.to_nat i) Hq) as Hq1.
  pose proof (vec_at_Some _ _ _ Hb) as [_ Hb'].
  pose proof (lookup_lt_Some _ _ _ Hb') as Hlt.
  destruct (split_subtree_after_unlocking_ q) eqn:Hflag.
  - destruct (UnlockQuerySubtree_flagged metric_in i q b (proj1 Hq) Hb Hflag)
      as [[_ ->]|(k & (Hel & _) & _ & ->)].
    + eexists _, _. split; [done|]. split; [done|]. split; [by left|].
      split; [|done]. simpl. by apply list_lookup_insert_eq.
    + destruct (eligible_inv _ _ Hel)
        as (c & bd & L & R & pq & Hlock & Hnode & Hpq & _).
      destruct Hq1 as (Hal1 & Hcount1 & [ex Hex1]).
      rewrite (split_subtree_eq _ _ _ _ _ _ _ _ _ Hal1 Hnode Hpq Hlock Hex1).
      eexists _, _. split; [done|].
      split; [|split; [|split; [|done]]].
      * by apply (split_result_consistent metric_in k _ c bd L R pq).
      * right. unfold size. simpl.
        rewrite length_app, length_insert. simpl. lia.
      * simpl. apply lookup_app_l_Some. by apply list_lookup_insert_eq.
  - rewrite (UnlockQuerySubtree_eq _ _ _ _ (vec_set_at _ _ false _ Hb)), Hflag.
    eexists _, _. split; [done|]. split; [done|]. split; [by left|].
    split; [|done]. simpl. by apply list_lookup_insert_eq.
Qed.

Lemma consistent_perform op q q' calls :
  consistent q ->
  perform op q = Some (tt, q', calls) ->
  consistent q' /\ (size q' = size q \/ size q' = size q + 1).
Proof.
  intros Hq. destruct op as [m i p|i out l|m i|]; simpl.
  - intros [? ?]%(consistent_PushTask _ _ _ _ _ _ Hq). by split; [|left].
  - unfold bind, ret.
    destruct (DequeueTask i out l q) as [[[r q1] c1]|] eqn:Hd; [|done].
    intros [= <- <-].
    apply (consistent_DequeueTask _ _ _ _ _ _ _ Hq) in Hd as [? ?].
    by split; [|left].
  - intros Hu.
    pose proof (UnlockQuerySubtree_Some _ _ _ _ Hu) as Hset.
    apply vec_set_Some in Hset as (Hi & Hlt & _).
    destruct (lookup_lt_is_Some_2 _ _ Hlt) as [b Hb].
    destruct (consistent_UnlockQuerySubtree m i q b Hq) as (q2 & c2 & Hu2 & ? & ? & _).
    { unfold vec_at. by case_decide. }
    rewrite Hu in Hu2. by injection Hu2 as <- <-.
  - unfold set_split_subtree_flag. unfold_monad. intros [= <- <-].
    split; [|by left]. by destruct Hq as (? & ? & ?).
Qed.

Lemma consistent_reachable local_query_table max_query_subtree_size
    table_exchange_in q :
  reachable local_query_table max_query_subtree_size table_exchange_in q ->
  consistent q.
Proof.
  induction 1 as [q calls Hinit|q op q' calls _ IH Hstep].
  - by eapply consistent_Init.
  - by eapply consistent_perform.
Qed.

Lemma split_gain_total_perm (l1 l2 : list TaskType) :
  l1 ≡ₚ l2 -> split_gain_total l1 = split_gain_total l2.
Proof. induction 1; simpl; lia. Qed.
End OperationFacts.

(** ** The slot that a requested split takes *)

Section SplitTargetFacts.
Context `{QT : QueueTypes}.
Implicit Types (q : DistributedDualtreeTaskQueue) (i : Z) (k : nat).

Lemma splittable_inv q k :
  splittable q k = true <-> eligible q k = true /\ 0 < slot_count q k.
Proof.
  unfold splittable. rewrite andb_true_iff, bool_decide_eq_true. done.
Qed.

Lemma split_target_unique q k1 k2 :
  split_target q k1 -> split_target q k2 -> k1 = k2.
Proof.
  intros (He1 & Hmax1 & Hfirst1) (He2 & Hmax2 & Hfirst2).
  destruct (Nat.lt_trichotomy k1 k2) as [Hlt|[->|Hlt]]; [|done|].
  - specialize (Hfirst2 _ He1 Hlt). specialize (Hmax1 _ He2). lia.
  - specialize (Hfirst1 _ He2 Hlt). specialize (Hmax2 _ He1). lia.
Qed.

Lemma split_choice_target q k :
  split_choice q k -> 0 < slot_count q k -> split_target q k.
Proof.
  intros (Hel & Hmax & Hfirst) Hpos. split; [by apply splittable_inv|].
  split.
  - intros j [Hj _]%splittable_inv. by apply Hmax.
  - intros j [Hj _]%splittable_inv Hlt. by apply Hfirst.
Qed.

(** Without a table exchange the second loop of [split_subtree_] stops at
    its first [LockCache]. *)
Lemma split_subtree_push_no_exchange metric_in i prev_task q :
  table_exchange_ q = None ->
  split_subtree_push metric_in i prev_task q = None.
Proof.
  intros Hnone. unfold split_subtree_push.
  destruct (is_leaf (reference_start_node prev_task)).
  - unfold bind at 1.
    destruct (PushTask _ _ _ q) as [[[[] q1] c1]|] eqn:H1; [|done].
    apply PushTask_effect in H1 as (_ & _ & Hex1).
    unfold bind at 1. unfold get at 1. unfold bind at 1.
    destruct (PushTask _ _ _ q1) as [[[[] q2] c2]|] eqn:H2; [|done].
    apply PushTask_effect in H2 as (_ & _ & Hex2).
    unfold LockCache. unfold_monad. by rewrite Hex2, Hex1, Hnone.
  - unfold bind at 1. unfold lift at 1.
    destruct (left _) as [l|]; [|done].
    unfold bind at 1. unfold lift at 1.
    destruct (right _) as [r|]; [|done].
    unfold bind at 1.
    destruct (PushTask _ _ _ q) as [[[[] q1] c1]|] eqn:H1; [|done].
    apply PushTask_effect in H1 as (_ & _ & Hex1).
    unfold bind at 1.
    destruct (PushTask _ _ _ q1) as [[[[] q2] c2]|] eqn:H2; [|done].
    apply PushTask_effect in H2 as (_ & _ & Hex2).
    unfold bind at 1. unfold get at 1. unfold bind at 1.
    destruct (PushTask _ _ _ q2) as [[[[] q3] c3]|] eqn:H3; [|done].
    apply PushTask_effect in H3 as (_ & _ & Hex3).
    unfold bind at 1. unfold get at 1. unfold bind at 1.
    destruct (PushTask _ _ _ q3) as [[[[] q4] c4]|] eqn:H4; [|done].
    apply PushTask_effect in H4 as (_ & _ & Hex4).
    unfold LockCache. unfold_monad.
    by rewrite Hex4, Hex3, Hex2, Hex1, Hnone.
Qed.

Lemma split_subtree_no_exchange metric_in i q pq :
  vec_at (tasks_ q) i = Some pq ->
  pq <> [] ->
  table_exchange_ q = None ->
  split_subtree_ metric_in i q = None.
Proof.
  intros Hpq Hne Hnone. unfold split_subtree_.
  unfold bind at 1. unfold get at 1.
  unfold bind at 1. unfold lift at 1.
  destruct (vec_at (local_query_subtrees_ q) i) as [node|]; [|done].
  unfold bind at 1. unfold lift at 1. destruct (left node) as [l|]; [|done].
  unfold bind at 1. unfold lift at 1. destruct (right node) as [r|]; [|done].
  unfold bind at 1. unfold lift at 1.
  destruct (vec_set _ _ _) as [subtrees'|]; [|done].
  unfold bind at 1. unfold put at 1.
  unfold bind at 1. unfold lift at 1. rewrite Hpq.
  unfold bind at 1.
  destruct (split_subtree_drain _ _ _ _) as [res|] eqn:Hdrain; [|done].
  apply (split_subtree_drain_effect _ _ pq) in Hdrain as ->; [|done].
  unfold bind at 1. unfold get at 1. unfold bind at 1. unfold put at 1.
  destruct (pq_top_is_Some pq Hne) as [t Ht].
  rewrite (pq_drain_step _ _ Ht). simpl. unfold bind at 1.
  by rewrite split_subtree_push_no_exchange.
Qed.

(** What [UnlockQuerySubtree] does with the split flag set: it splits the
    target slot of the queue in which its own lock is free, if there is
    one, and clears the flag. *)
Lemma UnlockQuerySubtree_target metric_in i q held :
  aligned q ->
  vec_at (local_query_subtree_locks_ q) i = Some held ->
  split_subtree_after_unlocking_ q = true ->
  let q1 := set_local_query_subtree_locks_ q
              (<[Z.to_nat i := false]> (local_query_subtree_locks_ q)) in
  (forall k,
      split_target q1 k ->
      exists c bd L R pq,
        local_query_subtrees_ q !! k = Some (TreeNode c bd L R)
        /\ tasks_ q !! k = Some pq
        /\ pq <> []
        /\ UnlockQuerySubtree metric_in i q =
             match table_exchange_ q with
             | Some _ =>
                 Some (tt,
                       set_split_subtree_after_unlocking_
                         (split_result metric_in k q1 L R (pq_drain pq)) false,
                       map split_lock_call (pq_drain pq))
             | None => None
             end)
  /\ ((forall k, splittable q1 k = false) ->
      UnlockQuerySubtree metric_in i q =
        Some (tt, set_split_subtree_after_unlocking_ q1 false, []))
  /\ ((exists k, splittable q1 k = true) -> exists k, split_target q1 k).
Proof.
  intros Hal Hheld Hflag q1.
  pose proof (UnlockQuerySubtree_flagged metric_in i q held Hal Hheld Hflag)
    as Hcases.
  pose proof (aligned_unlock q (Z.to_nat i) Hal) as Hal1.
  subst q1. cbv zeta in Hcases.
  destruct Hcases
    as [[[[_ Hlow]|(k' & [=] & _)] Hu]|(k' & Hchoice & Hpos & Hu)].
  - assert (forall k,
               splittable
                 (set_local_query_subtree_locks_ q
                    (<[Z.to_nat i := false]> (local_query_subtree_locks_ q)))
                 k = true -> False) as Hnone.
    { intros k [Hel Hk]%splittable_inv.
      specialize (Hlow k (eligible_lt _ _ Hel) Hel). lia. }
    split; [|split].
    + intros k (Hk & _). by destruct (Hnone k).
    + done.
    + intros [k Hk]. by destruct (Hnone k).
  - lia.
  - pose proof (split_choice_target _ _ Hchoice Hpos) as Htarget.
    split; [|split].
    + intros k Hk. rewrite (split_target_unique _ _ _ Hk Htarget).
      destruct Hchoice as (Hel & _).
      destruct (eligible_inv _ _ Hel)
        as (c & bd & L & R & pq & Hlock & Hnode & Hpq & Hne).
      exists c, bd, L, R, pq. split; [done|]. split; [done|]. split; [done|].
      rewrite Hu. destruct (table_exchange_ q) as [ex|] eqn:Hex.
      * by rewrite (split_subtree_eq _ _ _ _ _ _ _ _ ex Hal1 Hnode Hpq Hlock Hex).
      * rewrite (split_subtree_no_exchange _ _ _ pq); [done| |done|done].
        simpl. by rewrite vec_at_nat.
    + intros Hnone. destruct Htarget as (Hk & _). by rewrite Hnone in Hk.
    + intros _. by exists k'.
Qed.
End SplitTargetFacts.

(** ** The properties of the queue *)

Section Claims.
Context `{QT : QueueTypes}.
Implicit Types (q : DistributedDualtreeTaskQueue) (i : Z) (k : nat).

(** C1: in every run that initialises a constructed queue and then pushes,
    dequeues, unlocks and requests splits, [num_remaining_tasks_] is the
    number of tasks in all slots after each operation.  A split that
    returns has changed the counter by the gains of the tasks of its slot:
    +1 for a task whose reference node is a leaf and +3 for one whose
    reference node is internal, although it drains with [DequeueTask] and
    pushes with [PushTask]; and on a free internal slot of a consistent
    queue the split does return. *)
Theorem remaining_tasks_counts_tasks :
  (forall local_query_table max_query_subtree_size table_exchange_in q,
      reachable local_query_table max_query_subtree_size table_exchange_in q ->
      num_remaining_tasks_ q = total_tasks (tasks_ q))
  /\ (forall metric_in i q q' calls,
         split_subtree_ metric_in i q = Some (tt, q', calls) ->
         exists pq,
           vec_at (tasks_ q) i = Some pq
           /\ num_remaining_tasks_ q' =
                num_remaining_tasks_ q + split_gain_total pq)
  /\ (forall metric_in k q c bd L R pq,
         consistent q ->
         local_query_subtrees_ q !! k = Some (TreeNode c bd L R) ->
         tasks_ q !! k = Some pq ->
         local_query_subtree_locks_ q !! k = Some false ->
         exists q' calls,
           split_subtree_ metric_in (Z.of_nat k) q = Some (tt, q', calls)
           /\ num_remaining_tasks_ q' =
                num_remaining_tasks_ q + split_gain_total pq
           /\ num_remaining_tasks_ q' = total_tasks (tasks_ q')).
Proof.
  split; [|split].
  - intros t cap ex q Hq. by apply consistent_reachable in Hq as (_ & ? & _).
  - intros m i q q' calls (pq & Hpq & _ & Hn)%split_subtree_effect.
    exists pq. split; [done|].
    by rewrite <- (split_gain_total_perm _ _ (pq_drain_perm pq)).
  - intros m k q c bd L R pq Hq Hnode Hpq Hlock.
    pose proof Hq as (Hal & Hcount & [ex Hex]).
    rewrite (split_subtree_eq _ _ _ _ _ _ _ _ _ Hal Hnode Hpq Hlock Hex).
    eexists _, _. split; [done|]. split.
    + simpl. by rewrite (split_gain_total_perm _ _ (pq_drain_perm pq)).
    + by destruct (split_result_consistent m k q c bd L R pq Hq Hnode Hpq)
        as (_ & ? & _).
Qed.

(** C2: the queue calls [LockCache] in [split_subtree_] only.  A split that
    returns has made, for the tasks it drained and in their order, one call
    each: [LockCache(c, 1)] for a task with cache id [c] whose reference
    node is a leaf, [LockCache(c, 3)] for one whose reference node is
    internal.  [Init], [PushTask], [DequeueTask] and
    [set_split_subtree_flag] make no call, and the calls of
    [UnlockQuerySubtree] are those of the split it runs, if any. *)
Theorem lock_cache_only_in_split :
  (forall local_query_table max_query_subtree_size table_exchange_in q u q' calls,
      Init local_query_table max_query_subtree_size table_exchange_in q
        = Some (u, q', calls) -> calls = [])
  /\ (forall metric_in i node_pair q u q' calls,
         PushTask metric_in i node_pair q = Some (u, q', calls) -> calls = [])
  /\ (forall i task_out lock_in q r q' calls,
         DequeueTask i task_out lock_in q = Some (r, q', calls) -> calls = [])
  /\ (forall q u q' calls,
         set_split_subtree_flag q = Some (u, q', calls) -> calls = [])
  /\ (forall metric_in i q u q' calls,
         split_subtree_ metric_in i q = Some (u, q', calls) ->
         exists pq,
           vec_at (tasks_ q) i = Some pq
           /\ pq_drain pq ≡ₚ pq
           /\ calls =
                map (fun prev_task =>
                       (cache_id prev_task,
                        if is_leaf (reference_start_node prev_task)
                        then 1 else 3))
                  (pq_drain pq))
  /\ (forall metric_in i q u q' calls,
         UnlockQuerySubtree metric_in i q = Some (u, q', calls) ->
         calls = []
         \/ exists split_index q2,
              split_subtree_ metric_in split_index
                (set_local_query_subtree_locks_ q
                   (<[Z.to_nat i := false]> (local_query_subtree_locks_ q)))
              = Some (tt, q2, calls)).
Proof.
  repeat split.
  - intros t cap ex q u q' calls. rewrite Init_eq. simpl. by intros [= _ _ <-].
  - intros m i p q u q' calls Hp. by apply PushTask_effect in Hp as (-> & _).
  - intros i out l q r q' calls
      [(_ & _ & ->)|(pq & t & _ & _ & _ & _ & -> & _)]%DequeueTask_cases; done.
  - intros q u q' calls. unfold set_split_subtree_flag. unfold_monad.
    by intros [= _ _ <-].
  - intros m i q u q' calls (pq & Hpq & -> & _)%split_subtree_effect.
    exists pq. split; [done|]. split; [apply pq_drain_perm|done].
  - intros m i q u q' calls Hu.
    pose proof (UnlockQuerySubtree_Some _ _ _ _ Hu) as Hset.
    rewrite (UnlockQuerySubtree_eq _ _ _ _ Hset) in Hu.
    destruct (split_subtree_after_unlocking_ q); cycle 1.
    { left. by injection Hu as _ _ <-. }
    destruct (UnlockQuerySubtree_search _ _ _) as [best|]; [|done].
    case_decide.
    + destruct (split_subtree_ _ _ _) as [[[[] q2] calls2]|] eqn:Hs; [|done].
      injection Hu as _ _ <-. right. by eexists _, _.
    + left. by injection Hu as _ _ <-.
Qed.

(** C3: [DequeueTask] on a slot writes nothing to [task_out] when the slot
    has no task or is locked.  Otherwise it writes the task of greatest
    priority of the slot together with the slot index, takes that task and
    no other out of the slot, sets the lock of the slot to
    [lock_query_subtree_in], and decrements [num_remaining_tasks_]. *)
Theorem dequeue_takes_top_or_nothing i task_out lock_in q pq held :
  vec_at (tasks_ q) i = Some pq ->
  vec_at (local_query_subtree_locks_ q) i = Some held ->
  (pq = [] \/ held = true ->
   DequeueTask i task_out lock_in q = Some (task_out, q, []))
  /\ (pq <> [] -> held = false ->
      exists top,
        pq_top pq = Some top
        /\ top ∈ pq
        /\ (forall t, t ∈ pq -> (priority t <= priority top)%Q)
        /\ pq ≡ₚ top :: pq_pop pq
        /\ DequeueTask i task_out lock_in q =
             Some ((top, i),
                   mkQueue (local_query_subtrees_ q)
                     (<[Z.to_nat i := lock_in]> (local_query_subtree_locks_ q))
                     (<[Z.to_nat i := pq_pop pq]> (tasks_ q))
                     (split_subtree_after_unlocking_ q)
                     (table_exchange_ q)
                     (num_remaining_tasks_ q - 1),
                   [])).
Proof.
  intros Hpq Hl. split.
  - intros [->| ->].
    + by apply DequeueTask_empty.
    + by eapply DequeueTask_held.
  - intros Hne ->. destruct (pq_top_is_Some pq Hne) as [top Htop].
    exists top. split; [done|]. split; [by apply pq_top_elem_of|].
    split; [by apply pq_top_greatest|]. split; [by apply pq_pop_top|].
    by rewrite (DequeueTask_take _ _ _ _ _ _ Hpq Htop Hl).
Qed.


(** C5: [split_subtree_] on a free internal slot [k] of a consistent queue
    returns.  It puts the left child in slot [k] and appends the right
    child as slot [k'], the former length of the registry, with a free
    lock.  Every task of slot [k] is drained.  Slot [k] then holds, for
    each drained task in turn, the task of the left child with the
    reference node if that is a leaf, and with its two children otherwise;
    slot [k'] holds the same for the right child and nothing else; the
    priorities are those of the new pairs.  The other slots keep their
    tasks. *)
Theorem split_redistributes_tasks metric_in k q c bd L R pq :
  consistent q ->
  local_query_subtrees_ q !! k = Some (TreeNode c bd L R) ->
  tasks_ q !! k = Some pq ->
  local_query_subtree_locks_ q !! k = Some false ->
  let k' := length (local_query_subtrees_ q) in
  exists q' calls,
    split_subtree_ metric_in (Z.of_nat k) q = Some (tt, q', calls)
    /\ local_query_subtrees_ q' = <[k := L]> (local_query_subtrees_ q) ++ [R]
    /\ local_query_subtrees_ q' !! k = Some L
    /\ local_query_subtrees_ q' !! k' = Some R
    /\ local_query_subtree_locks_ q' = local_query_subtree_locks_ q ++ [false]
    /\ length (tasks_ q') = S k'
    /\ pq_drain pq ≡ₚ pq
    /\ tasks_ q' !! k = Some (flat_map (replacements metric_in L) (pq_drain pq))
    /\ tasks_ q' !! k' = Some (flat_map (replacements metric_in R) (pq_drain pq))
    /\ (forall j, j <> k -> (j < k')%nat -> tasks_ q' !! j = tasks_ q !! j)
    /\ (forall query t new_task,
           new_task ∈ replacements metric_in query t ->
           query_start_node new_task = query
           /\ cache_id new_task = cache_id t
           /\ reference_table new_task = reference_table t
           /\ priority new_task
              = (- mid (RangeDistanceSq (bound query) metric_in
                          (bound (reference_start_node new_task))))%Q
           /\ (if is_leaf (reference_start_node t)
               then reference_start_node new_task = reference_start_node t
               else left (reference_start_node t)
                      = Some (reference_start_node new_task)
                    \/ right (reference_start_node t)
                       = Some (reference_start_node new_task))).
Proof.
  intros Hq Hnode Hpq Hlock k'.
  pose proof Hq as ([Hal1 Hal2] & Hcount & [ex Hex]).
  pose proof (lookup_lt_Some _ _ _ Hnode) as Hk.
  rewrite (split_subtree_eq _ _ _ _ _ _ _ _ _ (proj1 Hq) Hnode Hpq Hlock Hex).
  eexists _, _. split; [done|]. simpl. fold k'.
  split; [done|]. split.
  { apply lookup_app_l_Some. by apply list_lookup_insert_eq. }
  split.
  { rewrite lookup_app_r; rewrite length_insert; [|done].
    by rewrite Nat.sub_diag. }
  split; [done|]. split.
  { rewrite !length_insert, length_app. simpl. lia. }
  split; [apply pq_drain_perm|]. split.
  { rewrite list_lookup_insert_ne by lia.
    apply list_lookup_insert_eq. rewrite length_app. lia. }
  split.
  { apply list_lookup_insert_eq. rewrite length_insert, length_app. simpl. lia. }
  split.
  { intros j Hj Hjk'.
    rewrite !list_lookup_insert_ne by lia.
    apply lookup_app_l. lia. }
  intros query t new_task. unfold replacements.
  destruct (reference_start_node t) as [c0 b0|c0 b0 l r]; simpl.
  - intros ->%list_elem_of_singleton. done.
  - intros [->| ->%list_elem_of_singleton]%elem_of_cons; simpl; auto 10.
Qed.

(** C6, as the code has it: whatever the state of the queue before,
    [Init] returns, the registry then holds exactly the frontier subtrees
    of the query table at the size cap, every lock is free, the split flag
    is cleared and the pointer to the table exchange is kept.
    [num_remaining_tasks_] is 0 afterwards when it was 0 before, as it is
    on a constructed queue. *)
Theorem Init_sets_up_registry
    local_query_table max_query_subtree_size table_exchange_in q :
  exists q',
    Init local_query_table max_query_subtree_size table_exchange_in q
      = Some (tt, q', [])
    /\ local_query_subtrees_ q'
       = get_frontier_nodes local_query_table max_query_subtree_size
    /\ length (local_query_subtree_locks_ q') = length (local_query_subtrees_ q')
    /\ length (tasks_ q') = length (local_query_subtrees_ q')
    /\ (forall k held,
           local_query_subtree_locks_ q' !! k = Some held -> held = false)
    /\ split_subtree_after_unlocking_ q' = false
    /\ table_exchange_ q' = Some table_exchange_in
    /\ (num_remaining_tasks_ q = 0 -> num_remaining_tasks_ q' = 0)
    /\ (q = new_queue -> num_remaining_tasks_ q' = 0).
Proof.
  rewrite Init_eq. simpl. eexists. split; [done|]. simpl.
  split; [done|]. split; [by rewrite length_replicate|].
  split; [by rewrite vec_resize_length|]. split.
  { intros k held [-> _]%lookup_replicate. done. }
  split; [done|]. split; [done|]. split; [done|]. by intros ->.
Qed.

(** C7: in every run that initialises a constructed queue and then pushes,
    dequeues, unlocks and requests splits, the three arrays of the registry
    have one length after each operation, and an operation leaves that
    length as it is or adds one slot. *)
Theorem registry_aligned_and_growing :
  (forall local_query_table max_query_subtree_size table_exchange_in q,
      reachable local_query_table max_query_subtree_size table_exchange_in q ->
      length (local_query_subtrees_ q) = length (local_query_subtree_locks_ q)
      /\ length (local_query_subtrees_ q) = length (tasks_ q))
  /\ (forall local_query_table max_query_subtree_size table_exchange_in
             q op q' calls,
         reachable local_query_table max_query_subtree_size table_exchange_in q ->
         perform op q = Some (tt, q', calls) ->
         length (local_query_subtrees_ q') = length (local_query_subtrees_ q)
         \/ length (local_query_subtrees_ q')
            = S (length (local_query_subtrees_ q))).
Proof.
  split.
  - intros t cap ex q Hq. by apply consistent_reachable in Hq as (? & _).
  - intros t cap ex q op q' calls Hq Hop.
    apply consistent_reachable in Hq.
    destruct (consistent_perform _ _ _ _ Hq Hop) as [_ Hsize].
    unfold size in Hsize. lia.
Qed.

(** C8: the task that [PushTask] adds to the slot has as priority the
    negated midpoint of the range of squared distances between the bound of
    the query subtree of the slot and the bound of the reference node; so
    of two reference nodes the one with the smaller midpoint gets the
    greater priority. *)
Theorem push_priority_is_negated_midpoint
    metric_in i (node_pair : TableType * TreeType * Z) q query pq :
  vec_at (local_query_subtrees_ q) i = Some query ->
  vec_at (tasks_ q) i = Some pq ->
  exists new_task,
    PushTask metric_in i node_pair q =
      Some (tt,
            mkQueue (local_query_subtrees_ q) (local_query_subtree_locks_ q)
              (<[Z.to_nat i := pq_push new_task pq]> (tasks_ q))
              (split_subtree_after_unlocking_ q) (table_exchange_ q)
              (num_remaining_tasks_ q + 1),
            [])
    /\ new_task = task_for metric_in query (node_pair.1.1) (node_pair.1.2)
                    (node_pair.2)
    /\ priority new_task
       = (- mid (RangeDistanceSq (bound query) metric_in
                   (bound (node_pair.1.2))))%Q
    /\ (forall table' node' id',
           (mid (RangeDistanceSq (bound query) metric_in (bound (node_pair.1.2)))
            < mid (RangeDistanceSq (bound query) metric_in (bound node')))%Q ->
           (priority (task_for metric_in query table' node' id')
            < priority new_task)%Q).
Proof.
  intros Hq Hpq. eexists. split; [by apply PushTask_eq|].
  split; [done|]. split; [done|].
  intros table' node' id' Hlt. simpl. by apply Qopp_lt_compat.
Qed.

(** C9: [DequeueTask] on a slot that has no task or is locked changes
    nothing: the queue is as before and [task_out] keeps the content the
    caller gave it. *)
Theorem failed_dequeue_changes_nothing i task_out lock_in q pq held :
  vec_at (tasks_ q) i = Some pq ->
  vec_at (local_query_subtree_locks_ q) i = Some held ->
  pq = [] \/ held = true ->
  DequeueTask i task_out lock_in q = Some (task_out, q, []).
Proof.
  intros Hpq Hl [->| ->].
  - by apply DequeueTask_empty.
  - by eapply DequeueTask_held.
Qed.

(** C10: [UnlockQuerySubtree] does not look at the lock it frees.  On a
    slot that is free already it does what it does on the same queue with
    that slot locked; without the split flag it leaves the queue as it is;
    and on a consistent queue it returns a consistent queue in which the
    slot is free, the flag is cleared and no slot is lost.  With the split
    flag set the search still runs over all the slots: the slot of
    greatest count among those that can be chosen, the lowest index among
    equal counts, is split, with the result and the calls of that split,
    and with no slot to choose only the flag changes. *)
Theorem unlock_of_free_slot metric_in i q :
  vec_at (local_query_subtree_locks_ q) i = Some false ->
  UnlockQuerySubtree metric_in i
    (set_local_query_subtree_locks_ q
       (<[Z.to_nat i := true]> (local_query_subtree_locks_ q)))
  = UnlockQuerySubtree metric_in i q
  /\ (split_subtree_after_unlocking_ q = false ->
      UnlockQuerySubtree metric_in i q = Some (tt, q, []))
  /\ (consistent q ->
      exists q' calls,
        UnlockQuerySubtree metric_in i q = Some (tt, q', calls)
        /\ consistent q'
        /\ (size q' = size q \/ size q' = size q + 1)
        /\ local_query_subtree_locks_ q' !! Z.to_nat i = Some false
        /\ split_subtree_after_unlocking_ q' = false)
  /\ (aligned q ->
      split_subtree_after_unlocking_ q = true ->
      (forall k,
          split_target q k ->
          exists c bd L R pq,
            local_query_subtrees_ q !! k = Some (TreeNode c bd L R)
            /\ tasks_ q !! k = Some pq
            /\ pq <> []
            /\ UnlockQuerySubtree metric_in i q =
                 match table_exchange_ q with
                 | Some _ =>
                     Some (tt,
                           set_split_subtree_after_unlocking_
                             (split_result metric_in k q L R (pq_drain pq))
                             false,
                           map split_lock_call (pq_drain pq))
                 | None => None
                 end)
      /\ ((forall k, splittable q k = false) ->
          UnlockQuerySubtree metric_in i q =
            Some (tt, set_split_subtree_after_unlocking_ q false, []))
      /\ ((exists k, splittable q k = true) -> exists k, split_target q k)).
Proof.
  intros Hfree. pose proof (vec_at_Some _ _ _ Hfree) as [Hi Hfree'].
  pose proof (lookup_lt_Some _ _ _ Hfree') as Hlt.
  split; [|split; [|split]]; cycle 3.
  { intros Hal Hflag.
    pose proof (UnlockQuerySubtree_target metric_in i q false Hal Hfree Hflag)
      as Htarget.
    cbv zeta in Htarget.
    assert (set_local_query_subtree_locks_ q
              (<[Z.to_nat i := false]> (local_query_subtree_locks_ q)) = q)
      as Hsame.
    { rewrite (list_insert_id _ _ _ Hfree'). by destruct q. }
    rewrite Hsame in Htarget. exact Htarget. }
  - pose proof (UnlockQuerySubtree_eq metric_in i q _
                  (vec_set_at _ _ false _ Hfree)) as Hq.
    pose proof (UnlockQuerySubtree_eq metric_in i
                  (set_local_query_subtree_locks_ q
                     (<[Z.to_nat i := true]> (local_query_subtree_locks_ q)))
                  (<[Z.to_nat i := false]> (local_query_subtree_locks_ q)))
      as Hheld.
    rewrite Hheld, Hq; [reflexivity|].
    simpl. unfold vec_set. rewrite length_insert.
    case_decide; [|lia]. by rewrite list_insert_insert_eq.
  - intros Hflag.
    rewrite (UnlockQuerySubtree_eq _ _ _ _ (vec_set_at _ _ false _ Hfree)), Hflag.
    rewrite (list_insert_id _ _ _ Hfree'). by destruct q.
  - intros Hq. by eapply consistent_UnlockQuerySubtree.
Qed.
End Claims.

(** ** The properties on the queue of the line *)

Lemma Line_reachable_q_held :
  reachable (QT := Line.types) Line.Q_root 4 tt Line.q_held.
Proof.
  apply (reachable_step (QT := Line.types) _ _ _ Line.q_pushed
           (OpDequeue (QT := Line.types) 0 (default_task, 0) true) _ []); [|reflexivity].
  apply (reachable_step (QT := Line.types) _ _ _ Line.q_two
           (OpPush (QT := Line.types) tt 0 (Line.R_root, Line.N, 7)) _ []); [|reflexivity].
  apply (reachable_step (QT := Line.types) _ _ _ Line.q_one
           (OpPush (QT := Line.types) tt 0 (Line.R_root, Line.R3, 3)) _ []); [|reflexivity].
  apply (reachable_step (QT := Line.types) _ _ _ Line.q_init
           (OpPush (QT := Line.types) tt 0 (Line.R_root, Line.R1, 1)) _ []); [|reflexivity].
  apply (reachable_init (QT := Line.types) _ _ _ _ []). reflexivity.
Qed.

Lemma Line_consistent_q_ready : consistent Line.q_ready.
Proof.
  split; [split; vm_compute; reflexivity|].
  split; [vm_compute; reflexivity|]. by eexists.
Qed.

Lemma remaining_tasks_counts_tasks_witness :
  num_remaining_tasks_ Line.q_held = total_tasks (tasks_ Line.q_held).
Proof.
  apply (proj1 (remaining_tasks_counts_tasks (QT := Line.types))
           Line.Q_root 4 tt).
  apply Line_reachable_q_held.
Defined.

Lemma lock_cache_only_in_split_witness :
  exists pq,
    vec_at (tasks_ Line.q_ready) 0 = Some pq
    /\ pq_drain pq ≡ₚ pq
    /\ Line.split_calls =
         map (fun prev_task : Task (Z * Z) (Tree (Z * Z)) =>
                (cache_id prev_task,
                 if is_leaf (reference_start_node prev_task) then 1 else 3))
           (pq_drain pq).
Proof.
  assert (split_subtree_ (QT := Line.types) tt 0 Line.q_ready
          = Some (tt, Line.q_split, Line.split_calls)) as Hsplit
    by (vm_compute; reflexivity).
  exact (proj1 (proj2 (proj2 (proj2 (proj2
           (lock_cache_only_in_split (QT := Line.types))))))
           tt 0 Line.q_ready tt Line.q_split Line.split_calls Hsplit).
Defined.

Lemma dequeue_takes_top_or_nothing_witness :
  exists top,
    pq_top (Line.pending Line.q_pushed) = Some top
    /\ DequeueTask (QT := Line.types) 0 (default_task, 0) true Line.q_pushed
       = Some ((top, 0),
               mkQueue (local_query_subtrees_ Line.q_pushed)
                 (<[Z.to_nat 0 := true]>
                    (local_query_subtree_locks_ Line.q_pushed))
                 (<[Z.to_nat 0 := pq_pop (Line.pending Line.q_pushed)]>
                    (tasks_ Line.q_pushed))
                 (split_subtree_after_unlocking_ Line.q_pushed)
                 (table_exchange_ Line.q_pushed)
                 (num_remaining_tasks_ Line.q_pushed - 1),
               []).
Proof.
  assert (vec_at (tasks_ Line.q_pushed) 0 = Some (Line.pending Line.q_pushed))
    as Hpq by (vm_compute; reflexivity).
  assert (vec_at (local_query_subtree_locks_ Line.q_pushed) 0 = Some false)
    as Hfree by (vm_compute; reflexivity).
  assert (Line.pending Line.q_pushed <> []) as Hne
    by (vm_compute; discriminate).
  destruct (dequeue_takes_top_or_nothing (QT := Line.types)
              0 (default_task, 0) true Line.q_pushed _ false Hpq Hfree)
    as [_ Htake].
  destruct (Htake Hne eq_refl) as (top & Htop & _ & _ & _ & Hdeq).
  exists top. split; [exact Htop|exact Hdeq].
Defined.



Lemma split_redistributes_tasks_witness :
  exists q' calls,
    split_subtree_ (QT := Line.types) tt 0 Line.q_ready = Some (tt, q', calls)
    /\ local_query_subtrees_ q' !! 0%nat = Some Line.Q_LL
    /\ local_query_subtrees_ q' !! length (local_query_subtrees_ Line.q_ready)
       = Some Line.Q_LR.
Proof.
  assert (local_query_subtrees_ Line.q_ready !! 0%nat
          = Some (TreeNode 4 (0, 3) Line.Q_LL Line.Q_LR)) as Hnode
    by (vm_compute; reflexivity).
  assert (tasks_ Line.q_ready !! 0%nat = Some (Line.pending Line.q_ready))
    as Hpq by (vm_compute; reflexivity).
  assert (local_query_subtree_locks_ Line.q_ready !! 0%nat = Some false)
    as Hlock by (vm_compute; reflexivity).
  destruct (split_redistributes_tasks (QT := Line.types) tt 0 Line.q_ready
              4 (0, 3) Line.Q_LL Line.Q_LR (Line.pending Line.q_ready)
              Line_consistent_q_ready Hnode Hpq Hlock)
    as (q' & calls & Hsplit & _ & HL & HR & _).
  exists q', calls. split; [exact Hsplit|]. split; [exact HL|exact HR].
Defined.

Lemma Init_sets_up_registry_witness :
  exists q' : Line.queue,
    Init (QT := Line.types) Line.Q_root 4 tt new_queue = Some (tt, q', [])
    /\ local_query_subtrees_ q' = [Line.Q_L; Line.Q_R]
    /\ num_remaining_tasks_ q' = 0.
Proof.
  destruct (Init_sets_up_registry (QT := Line.types) Line.Q_root 4 tt new_queue)
    as (q' & Hinit & Hfrontier & _ & _ & _ & _ & _ & Hzero & _).
  exists q'. split; [exact Hinit|]. split; [|exact (Hzero eq_refl)].
  etransitivity; [exact Hfrontier|]. vm_compute. reflexivity.
Defined.

(** C6, as stated, fails: [Init] on the queue [Line.q_pushed], which holds
    three tasks, returns with [num_remaining_tasks_] still 3. *)
Lemma Init_on_used_queue_keeps_counter :
  exists q' : Line.queue,
    Init (QT := Line.types) Line.Q_root 4 tt Line.q_pushed = Some (tt, q', [])
    /\ num_remaining_tasks_ q' = 3
    /\ num_remaining_tasks_ q' <> 0.
Proof.
  rewrite Init_eq. eexists. split; [reflexivity|].
  split; [vm_compute; reflexivity|vm_compute; discriminate].
Qed.

Lemma registry_aligned_and_growing_witness :
  length (local_query_subtrees_ Line.q_held)
    = length (local_query_subtree_locks_ Line.q_held)
  /\ length (local_query_subtrees_ Line.q_held) = length (tasks_ Line.q_held).
Proof.
  apply (proj1 (registry_aligned_and_growing (QT := Line.types))
           Line.Q_root 4 tt).
  apply Line_reachable_q_held.
Defined.

Lemma push_priority_is_negated_midpoint_witness :
  exists new_task : Task (Z * Z) (Tree (Z * Z)),
    priority new_task = (- (45 # 2))%Q
    /\ PushTask (QT := Line.types) tt 0 (Line.R_root, Line.R1, 1) Line.q_init
       = Some (tt,
               mkQueue (local_query_subtrees_ Line.q_init)
                 (local_query_subtree_locks_ Line.q_init)
                 (<[Z.to_nat 0 := pq_push new_task []]> (tasks_ Line.q_init))
                 (split_subtree_after_unlocking_ Line.q_init)
                 (table_exchange_ Line.q_init)
                 (num_remaining_tasks_ Line.q_init + 1),
               []).
Proof.
  assert (vec_at (local_query_subtrees_ Line.q_init) 0 = Some Line.Q_L)
    as Hquery by (vm_compute; reflexivity).
  assert (vec_at (tasks_ Line.q_init) 0 = Some []) as Hpq
    by (vm_compute; reflexivity).
  destruct (push_priority_is_negated_midpoint (QT := Line.types)
              tt 0 (Line.R_root, Line.R1, 1) Line.q_init Line.Q_L []
              Hquery Hpq) as (new_task & Hpush & _ & Hprio & _).
  exists new_task. split; [|exact Hpush].
  etransitivity; [exact Hprio|]. vm_compute. reflexivity.
Defined.

Lemma failed_dequeue_changes_nothing_witness :
  DequeueTask (QT := Line.types) 0 (default_task, 0) true Line.q_held
  = Some ((default_task, 0), Line.q_held, []).
Proof.
  assert (vec_at (tasks_ Line.q_held) 0 = Some (Line.pending Line.q_held))
    as Hpq by (vm_compute; reflexivity).
  assert (vec_at (local_query_subtree_locks_ Line.q_held) 0 = Some true)
    as Hheld by (vm_compute; reflexivity).
  exact (failed_dequeue_changes_nothing (QT := Line.types)
           0 (default_task, 0) true Line.q_held _ true Hpq Hheld
           (or_intror eq_refl)).
Defined.

Lemma unlock_of_free_slot_witness :
  (exists q' calls,
      UnlockQuerySubtree (QT := Line.types) tt 1 Line.q_ready
        = Some (tt, q', calls)
      /\ consistent q'
      /\ local_query_subtree_locks_ q' !! Z.to_nat 1 = Some false
      /\ split_subtree_after_unlocking_ q' = false)
  /\ (exists k c bd L R pq,
         local_query_subtrees_ Line.q_ready !! k = Some (TreeNode c bd L R)
         /\ tasks_ Line.q_ready !! k = Some pq
         /\ UnlockQuerySubtree (QT := Line.types) tt 1 Line.q_ready =
              match table_exchange_ Line.q_ready with
              | Some _ =>
                  Some (tt,
                        set_split_subtree_after_unlocking_
                          (split_result (QT := Line.types) tt k Line.q_ready
                             L R (pq_drain pq))
                          false,
                        map split_lock_call (pq_drain pq))
              | None => None
              end).
Proof.
  assert (vec_at (local_query_subtree_locks_ Line.q_ready) 1 = Some false)
    as Hfree by (vm_compute; reflexivity).
  assert (aligned Line.q_ready) as Hal by (split; vm_compute; reflexivity).
  assert (split_subtree_after_unlocking_ Line.q_ready = true) as Hflag
    by (vm_compute; reflexivity).
  destruct (unlock_of_free_slot (QT := Line.types) tt 1 Line.q_ready Hfree)
    as (_ & _ & Hok & Hscan).
  split.
  - destruct (Hok Line_consistent_q_ready)
      as (q' & calls & Hu & Hq' & _ & Hlock & Hflag').
    exists q', calls. split; [exact Hu|]. split; [exact Hq'|].
    split; [exact Hlock|exact Hflag'].
  - destruct (Hscan Hal Hflag) as (Hsplit & _ & Hsome).
    destruct Hsome as [k Hk].
    { exists 0%nat. vm_compute. reflexivity. }
    destruct (Hsplit k Hk) as (c & bd & L & R & pq & Hnode & Hpq & _ & Hu).
    exists k, c, bd, L, R, pq.
    split; [exact Hnode|]. split; [exact Hpq|exact Hu].
Defined.

(** * Further properties of the operations *)

Section MoreFacts.
Context `{QT : QueueTypes}.
Implicit Types (q : DistributedDualtreeTaskQueue) (i : Z) (k : nat).
Implicit Types (pq : list TaskType) (t : TaskType).

Lemma pq_size_nonneg pq : 0 <= pq_size pq.
Proof. unfold pq_size. lia. Qed.

Lemma total_tasks_nonneg (tasks : list (list TaskType)) : 0 <= total_tasks tasks.
Proof.
  induction tasks as [|pq tasks IH]; simpl; [done|].
  pose proof (pq_size_nonneg pq). lia.
Qed.

Lemma total_tasks_zero (tasks : list (list TaskType)) :
  total_tasks tasks = 0 <-> forall pq, pq ∈ tasks -> pq = [].
Proof.
  induction tasks as [|pq tasks IH]; simpl.
  - split; [|done]. intros _ pq Hpq. by apply elem_of_nil in Hpq.
  - pose proof (pq_size_nonneg pq). pose proof (total_tasks_nonneg tasks).
    split.
    + intros Hsum pq' [->|Hin]%elem_of_cons.
      * destruct pq; [done|]. unfold pq_size in *. simpl in *. lia.
      * apply IH; [lia|done].
    + intros Hall.
      rewrite (Hall pq) by apply list_elem_of_here.
      unfold pq_size. simpl. apply IH.
      intros pq' Hin. apply Hall. by apply list_elem_of_further.
Qed.

(** A task above all the tasks of a queue is its next top, and taking it
    out gives the queue back. *)
Lemma pq_top_push_above pq t :
  (forall u, u ∈ pq -> (priority u < priority t)%Q) ->
  pq_top (pq_push t pq) = Some t /\ pq_pop (pq_push t pq) = pq.
Proof.
  unfold pq_push. induction pq as [|a pq IH]; intros Habove; simpl; [done|].
  destruct IH as [Htop Hpop].
  { intros u Hu. apply Habove. by apply list_elem_of_further. }
  rewrite Htop, Hpop.
  assert (Qle_bool (priority t) (priority a) = false) as ->; [|done].
  destruct (Qle_bool (priority t) (priority a)) eqn:Hle; [|done].
  apply Qle_bool_iff in Hle.
  specialize (Habove a (list_elem_of_here _ _)).
  by apply Qle_not_lt in Hle.
Qed.

(** *** Counting the tasks of a cache id *)

Lemma tasks_with_cache_app c (a b : list (list TaskType)) :
  tasks_with_cache c (a ++ b) = tasks_with_cache c a + tasks_with_cache c b.
Proof. induction a as [|pq a IH]; simpl; [done|]. rewrite IH. lia. Qed.

Lemma tasks_with_cache_insert c (tasks : list (list TaskType)) k old new :
  tasks !! k = Some old ->
  tasks_with_cache c (<[k := new]> tasks)
  = tasks_with_cache c tasks - cache_count c old + cache_count c new.
Proof.
  revert k. induction tasks as [|pq tasks IH]; intros [|k] Hk; simpl in *;
    try done.
  - injection Hk as ->. lia.
  - rewrite (IH _ Hk). lia.
Qed.

Lemma cache_count_app c (a b : list TaskType) :
  cache_count c (a ++ b) = cache_count c a + cache_count c b.
Proof. induction a as [|t a IH]; simpl; [done|]. rewrite IH. lia. Qed.

Lemma cache_count_perm c (a b : list TaskType) :
  a ≡ₚ b -> cache_count c a = cache_count c b.
Proof. induction 1; simpl; lia. Qed.

(** The replacements of the drained tasks refer to a cache id as often as
    half of what the drained tasks and the locks of the split add up to. *)
Lemma cache_count_replacements c metric_in query prev_tasks :
  2 * cache_count c (flat_map (replacements metric_in query) prev_tasks)
  = cache_count c prev_tasks + locked_for c (map split_lock_call prev_tasks).
Proof.
  induction prev_tasks as [|t ts IH]; simpl; [done|].
  rewrite cache_count_app.
  unfold replacements at 1, split_gain at 1.
  destruct (reference_start_node t); simpl; repeat case_decide; lia.
Qed.

Lemma split_result_cache_count c metric_in k q c0 bd L R pq :
  aligned q ->
  local_query_subtrees_ q !! k = Some (TreeNode c0 bd L R) ->
  tasks_ q !! k = Some pq ->
  tasks_with_cache c (tasks_ (split_result metric_in k q L R (pq_drain pq)))
  = tasks_with_cache c (tasks_ q)
    + locked_for c (map split_lock_call (pq_drain pq)).
Proof.
  intros [Hal1 Hal2] Hnode Hpq.
  pose proof (lookup_lt_Some _ _ _ Hnode) as Hk. simpl.
  erewrite tasks_with_cache_insert; cycle 1.
  { rewrite list_lookup_insert_ne by lia.
    rewrite lookup_app_r by lia. by rewrite Hal2, Nat.sub_diag. }
  erewrite tasks_with_cache_insert; cycle 1.
  { by apply lookup_app_l_Some. }
  rewrite tasks_with_cache_app. simpl.
  pose proof (cache_count_replacements c metric_in L (pq_drain pq)).
  pose proof (cache_count_replacements c metric_in R (pq_drain pq)).
  rewrite (cache_count_perm c _ _ (pq_drain_perm pq)) in *. lia.
Qed.

Lemma in_range_lookup {A} (v : list A) i :
  0 <= i < Z.of_nat (length v) -> exists x, vec_at v i = Some x.
Proof.
  intros Hi. destruct (lookup_lt_is_Some_2 v (Z.to_nat i)) as [x Hx]; [lia|].
  exists x. unfold vec_at. by case_decide; [|lia].
Qed.

Lemma vec_resize_lookup {A} n (d : A) (v : list A) k :
  (k < n)%nat -> vec_resize n d v !! k = Some (default d (v !! k)).
Proof.
  intros Hk. unfold vec_resize.
  destruct (decide (k < length v)%nat) as [Hlt|Hge].
  - rewrite lookup_app_l by (rewrite length_take; lia).
    rewrite lookup_take_lt by done.
    by destruct (lookup_lt_is_Some_2 v k Hlt) as [x ->].
  - rewrite lookup_app_r; rewrite length_take; [|lia].
    rewrite (lookup_ge_None_2 v k) by lia. simpl.
    apply lookup_replicate_2. lia.
Qed.
End MoreFacts.

Section MoreProperties.
Context `{QT : QueueTypes}.
Implicit Types (q : DistributedDualtreeTaskQueue) (i : Z) (k : nat).
Implicit Types (pq : list TaskType) (t : TaskType).

(** X1: in every run that initialises a constructed queue and then pushes,
    dequeues, unlocks and requests splits, [is_empty] answers true exactly
    when no slot has a pending task. *)
Theorem is_empty_iff_no_tasks
    local_query_table max_query_subtree_size table_exchange_in q :
  reachable local_query_table max_query_subtree_size table_exchange_in q ->
  is_empty q = true <-> forall pq, pq ∈ tasks_ q -> pq = [].
Proof.
  intros (_ & Hcount & _)%consistent_reachable.
  unfold is_empty. rewrite bool_decide_eq_true, Hcount.
  apply total_tasks_zero.
Qed.

(** X2: on a consistent queue [PushTask], [DequeueTask] and
    [UnlockQuerySubtree] with a slot index of the registry return, with or
    without a split, and leave a consistent queue. *)
Theorem valid_operations_return
    metric_in i node_pair task_out lock_in q :
  consistent q ->
  0 <= i < size q ->
  (exists q',
      PushTask metric_in i node_pair q = Some (tt, q', [])
      /\ consistent q')
  /\ (exists r q',
         DequeueTask i task_out lock_in q = Some (r, q', [])
         /\ consistent q')
  /\ (exists q' calls,
         UnlockQuerySubtree metric_in i q = Some (tt, q', calls)
         /\ consistent q').
Proof.
  intros Hq Hi. pose proof Hq as ([Hal1 Hal2] & _). unfold size in Hi.
  destruct (in_range_lookup (local_query_subtrees_ q) i Hi) as [query Hquery].
  destruct (in_range_lookup (tasks_ q) i) as [pq Hpq]; [lia|].
  destruct (in_range_lookup (local_query_subtree_locks_ q) i) as [held Hheld];
    [lia|].
  split; [|split].
  - pose proof (PushTask_eq metric_in i node_pair q query pq Hquery Hpq) as Hp.
    eexists. split; [exact Hp|].
    by destruct (consistent_PushTask _ _ _ _ _ _ Hq Hp).
  - assert (exists r q', DequeueTask i task_out lock_in q = Some (r, q', []))
      as (r & q' & Hd).
    { destruct (pq_top pq) as [top|] eqn:Htop.
      - destruct held.
        + eexists _, _. by eapply DequeueTask_held.
        + eexists _, _. by eapply DequeueTask_take.
      - apply pq_top_None in Htop as ->. eexists _, _.
        by apply DequeueTask_empty. }
    exists r, q'. split; [done|].
    by destruct (consistent_DequeueTask _ _ _ _ _ _ _ Hq Hd).
  - destruct (consistent_UnlockQuerySubtree metric_in i q held Hq Hheld)
      as (q' & calls & Hu & Hq' & _).
    by exists q', calls.
Qed.

(** X3: a request for a split is served once.  Whenever
    [UnlockQuerySubtree] returns, the flag is cleared, and a further
    [UnlockQuerySubtree] of any slot, without a new request, frees the lock
    of that slot and does nothing else. *)
Theorem split_request_is_one_shot metric_in i q u q' calls :
  UnlockQuerySubtree metric_in i q = Some (u, q', calls) ->
  split_subtree_after_unlocking_ q' = false
  /\ forall metric_in' j held,
       vec_at (local_query_subtree_locks_ q') j = Some held ->
       UnlockQuerySubtree metric_in' j q' =
         Some (tt,
               set_local_query_subtree_locks_ q'
                 (<[Z.to_nat j := false]> (local_query_subtree_locks_ q')),
               []).
Proof.
  intros Hu.
  assert (split_subtree_after_unlocking_ q' = false) as Hflag.
  { pose proof (UnlockQuerySubtree_Some _ _ _ _ Hu) as Hset.
    pose proof (UnlockQuerySubtree_eq metric_in i q _ Hset) as Heq.
    rewrite Heq in Hu. clear Heq.
    destruct (split_subtree_after_unlocking_ q) eqn:Hf.
    - destruct (UnlockQuerySubtree_search _ _ _) as [best|]; [|done].
      destruct (if decide (0 <= best.2) then _ else _) as [[[[] q2] c2]|];
        [|done].
      by injection Hu as _ <- _.
    - by injection Hu as _ <- _. }
  split; [done|]. intros metric_in' j held Hheld.
  pose proof (UnlockQuerySubtree_eq metric_in' j q' _
                (vec_set_at _ _ false _ Hheld)) as Heq.
  by rewrite Hflag in Heq.
Qed.

(** X4: [UnlockQuerySubtree] of one slot leaves every other slot that is
    locked as it is: locked, with its query subtree and its pending tasks,
    also when the call splits a slot. *)
Theorem unlock_leaves_held_slots_alone metric_in i q q' calls j :
  consistent q ->
  UnlockQuerySubtree metric_in i q = Some (tt, q', calls) ->
  j <> Z.to_nat i ->
  local_query_subtree_locks_ q !! j = Some true ->
  local_query_subtree_locks_ q' !! j = Some true
  /\ local_query_subtrees_ q' !! j = local_query_subtrees_ q !! j
  /\ tasks_ q' !! j = tasks_ q !! j.
Proof.
  intros Hq Hu Hji Hj.
  pose proof (UnlockQuerySubtree_Some _ _ _ _ Hu) as Hset.
  apply vec_set_Some in Hset as (Hi & Hlt & _).
  destruct (lookup_lt_is_Some_2 _ _ Hlt) as [held Hheld'].
  assert (vec_at (local_query_subtree_locks_ q) i = Some held) as Hheld.
  { unfold vec_at. by case_decide. }
  pose proof (consistent_unlock q (Z.to_nat i) Hq) as (Hal1 & _ & [ex Hex1]).
  pose proof Hq as ([Hal Hal2] & _).
  pose proof (lookup_lt_Some _ _ _ Hj) as Hjlt.
  assert (<[Z.to_nat i := false]> (local_query_subtree_locks_ q) !! j
          = Some true) as Hj1.
  { by rewrite list_lookup_insert_ne. }
  destruct (split_subtree_after_unlocking_ q) eqn:Hflag.
  - destruct (UnlockQuerySubtree_flagged metric_in i q held (proj1 Hq) Hheld Hflag)
      as [[_ Heq]|(k & (Hel & _) & _ & Heq)]; rewrite Heq in Hu; clear Heq.
    + by injection Hu as <- _.
    + destruct (eligible_inv _ _ Hel)
        as (c & bd & L & R & pq & Hlock & Hnode & Hpq & _).
      rewrite (split_subtree_eq _ _ _ _ _ _ _ _ _ Hal1 Hnode Hpq Hlock Hex1)
        in Hu.
      injection Hu as <- _. simpl in *.
      assert (k <> j) by (intros ->; congruence).
      split; [by apply lookup_app_l_Some|]. split.
      * rewrite lookup_app_l by (rewrite length_insert; lia).
        by rewrite list_lookup_insert_ne.
      * rewrite !list_lookup_insert_ne by lia.
        apply lookup_app_l. lia.
  - rewrite (UnlockQuerySubtree_eq _ _ _ _ (vec_set_at _ _ false _ Hheld)),
      Hflag in Hu.
    by injection Hu as <- _.
Qed.

(** X5: a task pushed to a free slot with a priority above all the tasks
    pending there is the task that the next [DequeueTask] hands out, and
    [PushTask] followed by that [DequeueTask] without lock leaves the queue
    as it was. *)
Theorem push_then_dequeue_round_trip
    metric_in i (node_pair : TableType * TreeType * Z) task_out q query pq :
  vec_at (local_query_subtrees_ q) i = Some query ->
  vec_at (tasks_ q) i = Some pq ->
  vec_at (local_query_subtree_locks_ q) i = Some false ->
  (forall t,
      t ∈ pq ->
      (priority t
       < - mid (RangeDistanceSq (bound query) metric_in
                  (bound (node_pair.1.2))))%Q) ->
  (do _ <- PushTask metric_in i node_pair; DequeueTask i task_out false) q
  = Some ((task_for metric_in query (node_pair.1.1) (node_pair.1.2)
             (node_pair.2), i),
          q, []).
Proof.
  intros Hquery Hpq Hfree Habove.
  pose proof (vec_at_Some _ _ _ Hpq) as [Hi Hpq'].
  pose proof (vec_at_Some _ _ _ Hfree) as [_ Hfree'].
  pose proof (lookup_lt_Some _ _ _ Hpq') as Hlt.
  destruct (pq_top_push_above pq
              (task_for metric_in query (node_pair.1.1) (node_pair.1.2)
                 (node_pair.2)) Habove) as [Htop Hpop].
  unfold bind at 1.
  rewrite (PushTask_eq metric_in i node_pair q query pq Hquery Hpq).
  erewrite DequeueTask_take; [|simpl|exact Htop|exact Hfree].
  - simpl. rewrite Hpop, list_insert_insert_eq.
    rewrite (list_insert_id _ _ _ Hpq'), (list_insert_id _ _ _ Hfree').
    destruct q. unfold set_num_remaining_tasks_,
      set_local_query_subtree_locks_, set_tasks_. simpl.
    replace (num_remaining_tasks_0 + 1 - 1) with num_remaining_tasks_0 by lia.
    reflexivity.
  - unfold vec_at. case_decide; [|lia]. by apply list_lookup_insert_eq.
Qed.

(** X6: the locks that the queue takes on the cache follow its tasks.  For
    every cache id, [PushTask] adds one task of the id it is given and
    [DequeueTask] takes away at most the one task it hands out, both
    without a call of [LockCache]; [UnlockQuerySubtree] on a consistent
    queue changes the number of tasks of a cache id by exactly what its
    [LockCache] calls add to that id. *)
Theorem cache_locks_follow_tasks c :
  (forall metric_in i (node_pair : TableType * TreeType * Z) q u q' calls,
      PushTask metric_in i node_pair q = Some (u, q', calls) ->
      calls = []
      /\ tasks_with_cache c (tasks_ q')
         = tasks_with_cache c (tasks_ q)
           + (if decide (node_pair.2 = c) then 1 else 0))
  /\ (forall i task_out lock_in q r q' calls,
         DequeueTask i task_out lock_in q = Some (r, q', calls) ->
         calls = []
         /\ ((r = task_out /\ q' = q)
             \/ tasks_with_cache c (tasks_ q')
                = tasks_with_cache c (tasks_ q)
                  - (if decide (cache_id (r.1) = c) then 1 else 0)))
  /\ (forall metric_in i q q' calls,
         consistent q ->
         UnlockQuerySubtree metric_in i q = Some (tt, q', calls) ->
         tasks_with_cache c (tasks_ q')
         = tasks_with_cache c (tasks_ q) + locked_for c calls).
Proof.
  split; [|split].
  - intros m i p q u q' calls Hp.
    destruct (PushTask_Some _ _ _ _ _ Hp) as (query & pq & Hq & Hpq).
    rewrite (PushTask_eq _ _ _ _ _ _ Hq Hpq) in Hp. injection Hp as _ <- <-.
    split; [done|].
    simpl. apply vec_at_Some in Hpq as [_ Hpq].
    rewrite (tasks_with_cache_insert _ _ _ _ _ Hpq), cache_count_app.
    simpl. lia.
  - intros i out l q r q' calls
      [(-> & -> & ->)|(pq & t & Hpq & Ht & _ & -> & -> & ->)]%DequeueTask_cases;
      (split; [done|]); [by left|right].
    simpl. apply vec_at_Some in Hpq as [_ Hpq].
    rewrite (tasks_with_cache_insert _ _ _ _ _ Hpq).
    rewrite (cache_count_perm c _ _ (pq_pop_top _ _ Ht)). simpl. lia.
  - intros m i q q' calls Hq Hu.
    pose proof (UnlockQuerySubtree_Some _ _ _ _ Hu) as Hset.
    apply vec_set_Some in Hset as (Hi & Hlt & _).
    destruct (lookup_lt_is_Some_2 _ _ Hlt) as [held Hheld'].
    assert (vec_at (local_query_subtree_locks_ q) i = Some held) as Hheld.
    { unfold vec_at. by case_decide. }
    pose proof (consistent_unlock q (Z.to_nat i) Hq) as (Hal1 & _ & [ex Hex1]).
    destruct (split_subtree_after_unlocking_ q) eqn:Hflag.
    + destruct (UnlockQuerySubtree_flagged m i q held (proj1 Hq) Hheld Hflag)
        as [[_ Heq]|(k & (Hel & _) & _ & Heq)]; rewrite Heq in Hu; clear Heq.
      * injection Hu as <- <-. simpl. lia.
      * destruct (eligible_inv _ _ Hel)
          as (c0 & bd & L & R & pq & Hlock & Hnode & Hpq & _).
        rewrite (split_subtree_eq _ _ _ _ _ _ _ _ _ Hal1 Hnode Hpq Hlock Hex1)
          in Hu.
        injection Hu as <- <-.
        exact (split_result_cache_count c m k _ c0 bd L R pq Hal1 Hnode Hpq).
    + rewrite (UnlockQuerySubtree_eq _ _ _ _ (vec_set_at _ _ false _ Hheld)),
        Hflag in Hu.
      injection Hu as <- <-. simpl. lia.
Qed.

(** X7: [split_subtree_] on a slot that is locked and has pending tasks
    does not return: its first loop calls [DequeueTask], which takes
    nothing from a locked slot, until the slot is empty. *)
Theorem split_of_held_slot_does_not_return metric_in i q pq :
  vec_at (tasks_ q) i = Some pq ->
  pq <> [] ->
  vec_at (local_query_subtree_locks_ q) i = Some true ->
  (forall fuel prev_tasks, split_subtree_drain fuel i prev_tasks q = None)
  /\ split_subtree_ metric_in i q = None.
Proof.
  intros Hpq Hne Hheld. split.
  - intros fuel prev_tasks. by eapply split_subtree_drain_held.
  - unfold split_subtree_.
    unfold bind at 1. unfold get at 1.
    unfold bind at 1. unfold lift at 1.
    destruct (vec_at (local_query_subtrees_ q) i) as [node|]; [|done].
    unfold bind at 1. unfold lift at 1. destruct (left node) as [l|]; [|done].
    unfold bind at 1. unfold lift at 1. destruct (right node) as [r|]; [|done].
    unfold bind at 1. unfold lift at 1.
    destruct (vec_set _ _ _) as [subtrees'|]; [|done].
    unfold bind at 1. unfold put at 1.
    unfold bind at 1. unfold lift at 1. rewrite Hpq.
    unfold bind at 1.
    rewrite (split_subtree_drain_held _ _ _ _ pq); [done|done|done|].
    simpl. apply vec_at_Some in Hheld as [Hi Hheld].
    unfold vec_at. case_decide; [|lia]. by apply lookup_app_l_Some.
Qed.

(** X8: [Init] does not clear the task queues.  A slot of the new registry
    that was a slot before keeps its pending tasks, whatever its new query
    subtree; only the slots that are new start empty. *)
Theorem Init_keeps_tasks_of_remaining_slots
    local_query_table max_query_subtree_size table_exchange_in q u q' calls k :
  Init local_query_table max_query_subtree_size table_exchange_in q
    = Some (u, q', calls) ->
  (k < length (local_query_subtrees_ q'))%nat ->
  tasks_ q' !! k = Some (default pq_empty (tasks_ q !! k)).
Proof.
  rewrite Init_eq. simpl. intros [= _ <- _]. simpl.
  apply vec_resize_lookup.
Qed.

(** X9: the lock of a slot keeps other workers out until it is given back.
    After [DequeueTask] has taken the top of a free slot with the lock,
    every further [DequeueTask] on the slot takes nothing; and when no
    split is requested, [UnlockQuerySubtree] of the slot gives the queue
    in which the slot is free again and only that one task is gone. *)
Theorem lock_blocks_until_unlock
    metric_in i task_out task_out' lock_in q pq top :
  vec_at (tasks_ q) i = Some pq ->
  pq_top pq = Some top ->
  vec_at (local_query_subtree_locks_ q) i = Some false ->
  split_subtree_after_unlocking_ q = false ->
  exists q1,
    DequeueTask i task_out true q = Some ((top, i), q1, [])
    /\ DequeueTask i task_out' lock_in q1 = Some (task_out', q1, [])
    /\ UnlockQuerySubtree metric_in i q1 =
         Some (tt,
               set_num_remaining_tasks_
                 (set_tasks_ q (<[Z.to_nat i := pq_pop pq]> (tasks_ q)))
                 (num_remaining_tasks_ q - 1),
               []).
Proof.
  intros Hpq Htop Hfree Hflag.
  pose proof (vec_at_Some _ _ _ Hpq) as [Hi Hpq'].
  pose proof (vec_at_Some _ _ _ Hfree) as [_ Hfree'].
  pose proof (lookup_lt_Some _ _ _ Hpq') as Hlt.
  pose proof (lookup_lt_Some _ _ _ Hfree') as Hlt'.
  eexists. split; [by apply DequeueTask_take|].
  assert (forall b,
             vec_at (<[Z.to_nat i := b]> (local_query_subtree_locks_ q)) i
             = Some b) as Hlocked.
  { intros b. unfold vec_at. case_decide; [|lia].
    by apply list_lookup_insert_eq. }
  split.
  - eapply DequeueTask_held; simpl; [|apply Hlocked].
    unfold vec_at. case_decide; [|lia]. by apply list_lookup_insert_eq.
  - rewrite (UnlockQuerySubtree_eq _ _ _
               (<[Z.to_nat i := false]> (local_query_subtree_locks_ q))).
    + simpl. rewrite Hflag. rewrite (list_insert_id _ _ _ Hfree').
      by destruct q.
    + simpl. rewrite (vec_set_at _ _ _ _ (Hlocked true)).
      by rewrite list_insert_insert_eq.
Qed.



End MoreProperties.

(** ** The further properties on the queue of the line *)


Lemma Workers_consistent_q_busy : consistent Workers.q_busy.
Proof.
  split; [split; vm_compute; reflexivity|].
  split; [vm_compute; reflexivity|]. by eexists.
Qed.

Lemma Workers_unlock_q_busy :
  UnlockQuerySubtree (QT := Line.types) tt 1 Workers.q_busy
  = Some (tt, Workers.q_freed, Workers.freed_calls).
Proof. vm_compute. reflexivity. Qed.

Lemma is_empty_iff_no_tasks_witness :
  is_empty Line.q_held = true
  <-> forall pq, pq ∈ tasks_ Line.q_held -> pq = [].
Proof.
  exact (is_empty_iff_no_tasks (QT := Line.types) Line.Q_root 4 tt
           Line.q_held Line_reachable_q_held).
Defined.

Lemma valid_operations_return_witness :
  (exists q',
      PushTask (QT := Line.types) tt 1 (Line.R_root, Line.R1, 1) Line.q_ready
        = Some (tt, q', [])
      /\ consistent q')
  /\ (exists r q',
         DequeueTask (QT := Line.types) 1 (default_task, 0) true Line.q_ready
           = Some (r, q', [])
         /\ consistent q')
  /\ (exists q' calls,
         UnlockQuerySubtree (QT := Line.types) tt 1 Line.q_ready
           = Some (tt, q', calls)
         /\ consistent q').
Proof.
  assert (0 <= 1 < size Line.q_ready) as Hi
    by (split; vm_compute; [discriminate|reflexivity]).
  exact (valid_operations_return (QT := Line.types) tt 1
           (Line.R_root, Line.R1, 1) (default_task, 0) true Line.q_ready
           Line_consistent_q_ready Hi).
Defined.

Lemma split_request_is_one_shot_witness :
  split_subtree_after_unlocking_ Workers.q_freed = false
  /\ forall (metric_in' : unit) j held,
       vec_at (local_query_subtree_locks_ Workers.q_freed) j = Some held ->
       UnlockQuerySubtree (QT := Line.types) metric_in' j Workers.q_freed =
         Some (tt,
               set_local_query_subtree_locks_ Workers.q_freed
                 (<[Z.to_nat j := false]>
                    (local_query_subtree_locks_ Workers.q_freed)),
               []).
Proof.
  exact (split_request_is_one_shot (QT := Line.types) tt 1 Workers.q_busy tt
           Workers.q_freed Workers.freed_calls Workers_unlock_q_busy).
Defined.

Lemma unlock_leaves_held_slots_alone_witness :
  local_query_subtree_locks_ Workers.q_freed !! 0%nat = Some true
  /\ local_query_subtrees_ Workers.q_freed !! 0%nat
     = local_query_subtrees_ Workers.q_busy !! 0%nat
  /\ tasks_ Workers.q_freed !! 0%nat = tasks_ Workers.q_busy !! 0%nat.
Proof.
  assert (0%nat <> Z.to_nat 1) as Hne by (vm_compute; discriminate).
  assert (local_query_subtree_locks_ Workers.q_busy !! 0%nat = Some true)
    as Hheld by (vm_compute; reflexivity).
  exact (unlock_leaves_held_slots_alone (QT := Line.types) tt 1 Workers.q_busy
           Workers.q_freed Workers.freed_calls 0%nat
           Workers_consistent_q_busy Workers_unlock_q_busy Hne Hheld).
Defined.

Lemma push_then_dequeue_round_trip_witness :
  (do _ <- PushTask (QT := Line.types) tt 0 (Line.R_root, Line.R3, 3);
   DequeueTask 0 (default_task, 0) false) Line.q_one
  = Some ((task_for (QT := Line.types) tt Line.Q_L Line.R_root Line.R3 3, 0),
          Line.q_one, []).
Proof.
  assert (vec_at (local_query_subtrees_ Line.q_one) 0 = Some Line.Q_L)
    as Hquery by (vm_compute; reflexivity).
  assert (vec_at (tasks_ Line.q_one) 0 = Some (Line.pending Line.q_one))
    as Hpq by (vm_compute; reflexivity).
  assert (vec_at (local_query_subtree_locks_ Line.q_one) 0 = Some false)
    as Hfree by (vm_compute; reflexivity).
  assert (forall t : Task (Z * Z) (Tree (Z * Z)),
             t ∈ Line.pending Line.q_one ->
             (priority t
              < - mid (Line.distance_sq (bound Line.Q_L) tt (bound Line.R3)))%Q)
    as Habove.
  { intros t Hin. vm_compute in Hin.
    apply list_elem_of_singleton in Hin. subst t. vm_compute. reflexivity. }
  exact (push_then_dequeue_round_trip (QT := Line.types) tt 0
           (Line.R_root, Line.R3, 3) (default_task, 0) Line.q_one Line.Q_L
           (Line.pending Line.q_one) Hquery Hpq Hfree Habove).
Defined.

Lemma cache_locks_follow_tasks_witness :
  tasks_with_cache 7 (tasks_ Workers.q_freed)
  = tasks_with_cache 7 (tasks_ Workers.q_busy)
    + locked_for 7 Workers.freed_calls.
Proof.
  exact (proj2 (proj2 (cache_locks_follow_tasks (QT := Line.types) 7))
           tt 1 Workers.q_busy Workers.q_freed Workers.freed_calls
           Workers_consistent_q_busy Workers_unlock_q_busy).
Defined.

Lemma split_of_held_slot_does_not_return_witness :
  (forall fuel prev_tasks,
      split_subtree_drain (QT := Line.types) fuel 0 prev_tasks Line.q_asked
      = None)
  /\ split_subtree_ (QT := Line.types) tt 0 Line.q_asked = None.
Proof.
  assert (vec_at (tasks_ Line.q_asked) 0 = Some (Line.pending Line.q_asked))
    as Hpq by (vm_compute; reflexivity).
  assert (Line.pending Line.q_asked <> []) as Hne
    by (vm_compute; discriminate).
  assert (vec_at (local_query_subtree_locks_ Line.q_asked) 0 = Some true)
    as Hheld by (vm_compute; reflexivity).
  exact (split_of_held_slot_does_not_return (QT := Line.types) tt 0
           Line.q_asked (Line.pending Line.q_asked) Hpq Hne Hheld).
Defined.

Lemma Init_keeps_tasks_of_remaining_slots_witness :
  exists q' : Line.queue,
    Init (QT := Line.types) Line.Q_root 4 tt Line.q_pushed = Some (tt, q', [])
    /\ tasks_ q' !! 0%nat
       = Some (default pq_empty (tasks_ Line.q_pushed !! 0%nat)).
Proof.
  pose proof (Init_eq (QT := Line.types) Line.Q_root 4 tt Line.q_pushed)
    as Hinit.
  cbv zeta in Hinit. eexists. split; [exact Hinit|].
  apply (Init_keeps_tasks_of_remaining_slots (QT := Line.types)
           Line.Q_root 4 tt Line.q_pushed tt _ [] 0%nat Hinit).
  vm_compute. lia.
Defined.

Lemma lock_blocks_until_unlock_witness :
  exists top q1,
    DequeueTask (QT := Line.types) 0 (default_task, 0) true Line.q_pushed
      = Some ((top, 0), q1, [])
    /\ DequeueTask (QT := Line.types) 0 (default_task, 0) false q1
       = Some ((default_task, 0), q1, [])
    /\ UnlockQuerySubtree (QT := Line.types) tt 0 q1 =
         Some (tt,
               set_num_remaining_tasks_
                 (set_tasks_ Line.q_pushed
                    (<[Z.to_nat 0 := pq_pop (Line.pending Line.q_pushed)]>
                       (tasks_ Line.q_pushed)))
                 (num_remaining_tasks_ Line.q_pushed - 1),
               []).
Proof.
  assert (vec_at (tasks_ Line.q_pushed) 0 = Some (Line.pending Line.q_pushed))
    as Hpq by (vm_compute; reflexivity).
  assert (vec_at (local_query_subtree_locks_ Line.q_pushed) 0 = Some false)
    as Hfree by (vm_compute; reflexivity).
  assert (split_subtree_after_unlocking_ Line.q_pushed = false) as Hflag
    by (vm_compute; reflexivity).
  destruct (pq_top (Line.pending Line.q_pushed)) as [top|] eqn:Htop;
    [|vm_compute in Htop; discriminate].
  exists top.
  exact (lock_blocks_until_unlock (QT := Line.types) tt 0 (default_task, 0)
           (default_task, 0) false Line.q_pushed (Line.pending Line.q_pushed)
           top Hpq Htop Hfree Hflag).
Defined.

